(** * mlx-transcribe: speaker attribution, transcript formatting and the
      recording session

    A shallow embedding of the logic found in
    [transcript-with-diarization.py], [transcript-by-segment.py] and
    [whipser-mp3.py].

    Conventions of the embedding.
    - Python numbers that carry times (seconds) are exact rationals [Q]:
      the comparisons, subtractions, additions, floor divisions and
      remainders of the source are the exact ones.  Rounding of binary
      floating point is outside this model.
    - A Python [dict] is an association list in insertion order: iteration
      order is observable through [max(speaker_time, key=...)].
    - Calls into collaborators (audio device, clock, model inference, file
      system) are events of a trace; what they return is read from a
      scripted world. *)

From Stdlib Require Import QArith Qround Qminmax ZArith List String Ascii Bool Lia.
From Stdlib Require Import DecimalString DecimalPos DecimalN Lqa Permutation.
Import ListNotations.
Open Scope Q_scope.

(** ** Python comparisons and built-ins on numbers *)

(** [a < b] on numbers, as a boolean. *)
Definition Qltb (a b : Q) : bool :=
  (Qnum a * QDen b <? Qnum b * QDen a)%Z.

(** [max(a, b)]: the first argument is kept unless the second is greater. *)
Definition py_max (a b : Q) : Q := if Qltb a b then b else a.

(** [min(a, b)]: the first argument is kept unless the second is smaller. *)
Definition py_min (a b : Q) : Q := if Qltb b a then b else a.

(** ** Python [dict] with string keys, in insertion order *)

Module Dict.

Definition t := list (string * Q).

Definition empty : t := [].

Fixpoint lookup (d : t) (k : string) : option Q :=
  match d with
  | [] => None
  | (k', v) :: d' => if String.eqb k' k then Some v else lookup d' k
  end.

(** [d.get(k, default)] *)
Definition get (d : t) (k : string) (default : Q) : Q :=
  match lookup d k with
  | Some v => v
  | None => default
  end.

(** [d[k] = v]: an existing key keeps its position, a new key goes last. *)
Fixpoint set (d : t) (k : string) (v : Q) : t :=
  match d with
  | [] => [(k, v)]
  | (k', v') :: d' =>
      if String.eqb k' k then (k', v) :: d' else (k', v') :: set d' k v
  end.

(** Iterating a dict yields its keys in insertion order. *)
Definition keys (d : t) : list string := map fst d.

(** [not d] *)
Definition is_empty (d : t) : bool :=
  match d with [] => true | _ :: _ => false end.

End Dict.

(** [max(iterable, key=f)] after the first element: the running best is
    replaced only by an element whose key is strictly greater. *)
Fixpoint py_max_from (f : string -> Q) (best : string) (rest : list string)
  : string :=
  match rest with
  | [] => best
  | k :: rest' =>
      if Qltb (f best) (f k) then py_max_from f k rest'
      else py_max_from f best rest'
  end.

(** [max(iterable, key=f)]; [None] stands for the [ValueError] raised on an
    empty iterable. *)
Definition py_max_key (f : string -> Q) (l : list string) : option string :=
  match l with
  | [] => None
  | k :: rest => Some (py_max_from f k rest)
  end.

(** ** Speaker attribution: [get_speaker_for_time] *)

(** A pyannote turn (a [Segment] with [start] and [end]). *)
Record Turn := mkTurn { turn_start : Q; turn_end : Q }.

(** [diarization.speaker_diarization] iterates pairs [(turn, speaker)]. *)
Definition Diarization := list (Turn * string).

Definition unknown_speaker : string := "Unknown Speaker".

(** One iteration of the [for turn, speaker in ...] loop. *)
Definition speaker_time_step (start end_ : Q) (speaker_time : Dict.t)
    (it : Turn * string) : Dict.t :=
  let (turn, speaker) := it in
  let overlap_start := py_max (turn_start turn) start in
  let overlap_end := py_min (turn_end turn) end_ in
  if Qltb overlap_start overlap_end then
    let duration := overlap_end - overlap_start in
    Dict.set speaker_time speaker (Dict.get speaker_time speaker 0 + duration)
  else speaker_time.

(** The dict [speaker_time] when the loop is over. *)
Definition speaker_time_of (diarization : Diarization) (start end_ : Q)
  : Dict.t :=
  fold_left (speaker_time_step start end_) diarization Dict.empty.

(** [get_speaker_for_time(diarization, start, end)].  The key function
    [speaker_time.get] is applied to keys of [speaker_time] only, so its
    implicit default [None] is never produced. *)
Definition get_speaker_for_time (diarization : Diarization) (start end_ : Q)
  : string :=
  let speaker_time := speaker_time_of diarization start end_ in
  if Dict.is_empty speaker_time then unknown_speaker
  else
    match py_max_key (fun k => Dict.get speaker_time k 0)
                     (Dict.keys speaker_time) with
    | Some speaker => speaker
    | None => unknown_speaker
    end.

(** *** The quantities the specification speaks about *)

(** overlap = max(0, min(turn.end, seg_end) - max(turn.start, seg_start)) *)
Definition overlap (turn : Turn) (s e : Q) : Q :=
  Qmax 0 (Qmin (turn_end turn) e - Qmax (turn_start turn) s).

(** Total intersection length of one speaker's turns with the window. *)
Fixpoint total_overlap (T : Diarization) (sp : string) (s e : Q) : Q :=
  match T with
  | [] => 0
  | (turn, sp') :: T' =>
      (if String.eqb sp' sp then overlap turn s e else 0)
      + total_overlap T' sp s e
  end.

(** Speakers in order of their first turn that meets the window. *)
Fixpoint first_seen (T : Diarization) (s e : Q) (seen : list string)
  : list string :=
  match T with
  | [] => seen
  | (turn, sp) :: T' =>
      if Qltb 0 (overlap turn s e) then
        if existsb (String.eqb sp) seen then first_seen T' s e seen
        else first_seen T' s e (seen ++ [sp])
      else first_seen T' s e seen
  end.

(** What one turn adds to the total of speaker [sp]. *)
Definition share (it : Turn * string) (sp : string) (s e : Q) : Q :=
  if String.eqb (snd it) sp then overlap (fst it) s e else 0.

(** All values stored in the dict are positive. *)
Definition positive_values (d : Dict.t) : Prop :=
  forall k v, Dict.lookup d k = Some v -> 0 < v.

(** [a] occurs in [l] earlier than [b] does. *)
Definition comes_before (a b : string) (l : list string) : Prop :=
  exists l1 l2 l3, l = (l1 ++ a :: l2 ++ b :: l3)%list.

(** ** Text helpers: what f-strings and [str] do *)

Open Scope string_scope.

(** The line feed character, written [\n] in the source. *)
Definition nl : string := String (ascii_of_nat 10) EmptyString.

(** [s * n] on strings. *)
Fixpoint str_repeat (s : string) (n : nat) : string :=
  match n with
  | O => ""
  | S n' => s ++ str_repeat s n'
  end.

(** Decimal digits of [|z|], without sign. *)
Definition str_abs (z : Z) : string :=
  NilZero.string_of_uint (N.to_uint (Z.abs_N z)).

(** [str(z)] and [f"{z}"] for an integer. *)
Definition str_int (z : Z) : string :=
  if (z <? 0)%Z then "-" ++ str_abs z else str_abs z.

(** [f"{z:0Wd}"]: sign-aware zero padding to a total width of [W]. *)
Definition format_0d (width : nat) (z : Z) : string :=
  let sign := if (z <? 0)%Z then "-" else "" in
  let body := str_abs z in
  sign ++ str_repeat "0" (width - String.length sign - String.length body)
       ++ body.

(** [a // b] on numbers: the floor of the quotient, still a number. *)
Definition py_floordiv (a b : Q) : Q := inject_Z (Qfloor (a / b)).

(** [a % b] for a positive [b]: the remainder of the floor division. *)
Definition py_mod (a b : Q) : Q := a - b * inject_Z (Qfloor (a / b)).

(** [int(x)]: truncation toward zero. *)
Definition py_int (x : Q) : Z := Z.quot (Qnum x) (QDen x).

(** ** Transcript formatting: [format_time] and [format_transcript] *)

(** [format_time(seconds)] *)
Definition format_time (seconds : Q) : string :=
  let hours := py_int (py_floordiv seconds 3600) in
  let minutes := py_int (py_floordiv (py_mod seconds 3600) 60) in
  let secs := py_int (py_mod seconds 60) in
  format_0d 2 hours ++ ":" ++ format_0d 2 minutes ++ ":" ++ format_0d 2 secs.

(** An element of [transcript_with_speakers]. *)
Record Segment := mkSegment {
  seg_speaker : string;
  seg_start : Q;
  seg_end : Q;
  seg_text : string
}.

(** The local variables the loop of [format_transcript] updates. *)
Record FmtState := mkFmt {
  output : string;
  current_speaker : option string   (* [None] is Python's [None] *)
}.

(** [speaker != current_speaker] *)
Definition speaker_differs (speaker : string) (current : option string)
  : bool :=
  match current with
  | None => true
  | Some c => negb (String.eqb speaker c)
  end.

Definition header_line (timestamp speaker : string) : string :=
  "[" ++ timestamp ++ "] " ++ speaker ++ ":" ++ nl.

Definition text_line (text : string) : string := "  " ++ text ++ nl.

(** One iteration of [for seg in segments]. *)
Definition format_step (st : FmtState) (seg : Segment) : FmtState :=
  let speaker := seg_speaker seg in
  let text := seg_text seg in
  let timestamp := format_time (seg_start seg) in
  let st1 :=
    if speaker_differs speaker (current_speaker st) then
      let out :=
        match current_speaker st with
        | Some _ => output st ++ nl
        | None => output st
        end in
      mkFmt (out ++ header_line timestamp speaker) (Some speaker)
    else st in
  mkFmt (output st1 ++ text_line text) (current_speaker st1).

(** The three lines every segment report starts with. *)
Definition segment_banner (segment_num : Z) : string :=
  (nl ++ str_repeat "=" 70 ++ nl)
  ++ ("SEGMENT " ++ str_int segment_num ++ nl)
  ++ (str_repeat "=" 70 ++ nl ++ nl).

(** [format_transcript(segments, segment_num)] *)
Definition format_transcript (segments : list Segment) (segment_num : Z)
  : string :=
  let st0 := mkFmt (segment_banner segment_num) None in
  let st := fold_left format_step segments st0 in
  output st ++ nl.

(** *** The blocks the specification speaks about *)

(** [LabeledBlock]: one maximal run of consecutive segments of a speaker. *)
Record LabeledBlock := mkBlock {
  blk_speaker : string;
  blk_timestamp : string;
  blk_lines : list string
}.

(** Splits the sequence, as given, into maximal runs of equal speakers. *)
Fixpoint group_blocks (segments : list Segment) : list LabeledBlock :=
  match segments with
  | [] => []
  | seg :: rest =>
      let fresh :=
        mkBlock (seg_speaker seg) (format_time (seg_start seg))
                [seg_text seg] in
      match group_blocks rest with
      | [] => [fresh]
      | b :: bs =>
          if String.eqb (seg_speaker seg) (blk_speaker b) then
            mkBlock (seg_speaker seg) (format_time (seg_start seg))
                    (seg_text seg :: blk_lines b) :: bs
          else fresh :: b :: bs
      end
  end.

(** The lines of a block, each indented and ended by a line feed. *)
Fixpoint render_lines (lines : list string) : string :=
  match lines with
  | [] => ""
  | l :: lines' => text_line l ++ render_lines lines'
  end.

(** A block on the page: its header, then one line per segment. *)
Definition render_block (b : LabeledBlock) : string :=
  header_line (blk_timestamp b) (blk_speaker b) ++ render_lines (blk_lines b).

(** Blocks are separated by one empty line. *)
Fixpoint render_blocks (bs : list LabeledBlock) : string :=
  match bs with
  | [] => ""
  | b :: bs' =>
      match bs' with
      | [] => render_block b
      | _ :: _ => render_block b ++ nl ++ render_blocks bs'
      end
  end.

(** What the segment at one position adds to the output, given the speaker
    of the segment immediately before it ([None] at the first position). *)
Definition emitted (prev : option string) (seg : Segment) : string :=
  if speaker_differs (seg_speaker seg) prev then
    (match prev with Some _ => nl | None => "" end)
    ++ header_line (format_time (seg_start seg)) (seg_speaker seg)
    ++ text_line (seg_text seg)
  else text_line (seg_text seg).

Fixpoint emitted_from (prev : option string) (segments : list Segment)
  : string :=
  match segments with
  | [] => ""
  | seg :: rest =>
      emitted prev seg ++ emitted_from (Some (seg_speaker seg)) rest
  end.

(** Number of positions whose speaker differs from the one just before. *)
Fixpoint speaker_changes (prev : option string) (segments : list Segment)
  : nat :=
  match segments with
  | [] => O
  | seg :: rest =>
      (if speaker_differs (seg_speaker seg) prev then 1 else 0)%nat
      + speaker_changes (Some (seg_speaker seg)) rest
  end.

(** *** The loop of [format_transcript] as an execution relation

    [fmt_exec st segments st'] : starting with the local variables [st],
    the [for] loop over [segments] ends with the local variables [st'].
    Each constructor is one path through the loop body. *)
Inductive fmt_exec : FmtState -> list Segment -> FmtState -> Prop :=
| fmt_exec_done : forall st,
    fmt_exec st [] st
| fmt_exec_first : forall st seg rest st',
    current_speaker st = None ->
    fmt_exec
      (mkFmt (output st
              ++ header_line (format_time (seg_start seg)) (seg_speaker seg)
              ++ text_line (seg_text seg))
             (Some (seg_speaker seg)))
      rest st' ->
    fmt_exec st (seg :: rest) st'
| fmt_exec_change : forall st c seg rest st',
    current_speaker st = Some c ->
    seg_speaker seg <> c ->
    fmt_exec
      (mkFmt (output st ++ nl
              ++ header_line (format_time (seg_start seg)) (seg_speaker seg)
              ++ text_line (seg_text seg))
             (Some (seg_speaker seg)))
      rest st' ->
    fmt_exec st (seg :: rest) st'
| fmt_exec_same : forall st seg rest st',
    current_speaker st = Some (seg_speaker seg) ->
    fmt_exec (mkFmt (output st ++ text_line (seg_text seg))
                    (current_speaker st))
             rest st' ->
    fmt_exec st (seg :: rest) st'.

(** A call of [format_transcript] returns [out]: the locals are created by
    the call itself, the loop runs, the closing line feed is added. *)
Definition format_transcript_returns (segments : list Segment)
    (segment_num : Z) (out : string) : Prop :=
  exists st,
    fmt_exec (mkFmt (segment_banner segment_num) None) segments st
    /\ out = output st ++ nl.

(** ** The recording session *)

(** What the scripts do to the outside, in program order. *)
Inductive ThreadTarget := transcribe_segment | transcribe_with_speakers.

Inductive event :=
| Print (s : string)                      (* [print(s)] *)
| LoadPipeline (name token : string)      (* [Pipeline.from_pretrained] *)
| PipelineTo (device : string)            (* [diarization_pipeline.to] *)
| MakeDirs (path : string)                (* [os.makedirs] *)
| WriteFile (path content : string)       (* [open(path, "w")] + writes *)
| AudioInit                               (* [pyaudio.PyAudio()] *)
| StreamOpen                              (* [audio.open(...)] *)
| StreamRead (data : string)              (* [stream.read(CHUNK)] *)
| WavSave (path : string) (frames : list string)
                                          (* [wave.open] ... [wf.close()] *)
| ThreadStart (target : ThreadTarget) (audio_file : string)
              (segment_num : Z)           (* [transcribe_thread.start()] *)
| StreamStop
| StreamClose
| AudioTerminate
| Transcribe (audio_file model : string)  (* [mlx_whisper.transcribe] *)
| PrintExecutionTime (minutes : Q).

(** What the [try] block around [torch.backends.mps.is_available()] and
    [diarization_pipeline.to] meets. *)
Inductive MpsProbe :=
| MpsAvailable                 (* the probe says yes, the move succeeds *)
| MpsUnavailable               (* the probe says no *)
| MpsRaises (e : string)       (* the import or the probe raises *)
| MpsMoveRaises (e : string).  (* the probe says yes, the move raises *)

(** What one [stream.read(CHUNK)] does: it returns a chunk, or the user's
    interrupt arrives while the loop is blocked in it. *)
Inductive ReadResult := ReadData (data : string) | ReadInterrupt.

(** Everything a session reads from the outside.  Collaborator calls other
    than [stream.read] and the MPS probe are taken to return normally. *)
Record World := mkWorld {
  hf_token : option string;       (* [os.getenv("HF_TOKEN")] *)
  mps_probe : MpsProbe;
  transcriptions_exists : bool;   (* [os.path.exists("transcriptions")] *)
  session_stamp : string;         (* first [datetime.now().strftime] *)
  header_stamp : string;          (* second [datetime.now().strftime] *)
  clock : list Q;                 (* successive values of [time.time()] *)
  reads : list ReadResult         (* successive [stream.read] outcomes *)
}.

(** [not x] for [x] a string or [None]. *)
Definition py_not (x : option string) : bool :=
  match x with
  | None => true
  | Some s => String.eqb s ""
  end.

(** How the capture loop was left. *)
Inductive LoopExit :=
| ExitBreak          (* [if not frames: break] *)
| ExitInterrupt      (* [KeyboardInterrupt] out of [stream.read] *)
| ExitScriptEnd.     (* the scripted world has no further answer *)

(** Where the capture loop stands between two clock readings. *)
Inductive LoopPoint :=
| AtSegmentStart
| InSegment (segment_start : Q) (frames : list string).

(** The line printed when the recording of a segment begins. *)
Definition recording_line (segment_num : Z) : string :=
  nl ++ "🔴 Recording segment " ++ str_int segment_num ++ "...".

Definition segment_wav (session_dir : string) (segment_num : Z) : string :=
  session_dir ++ "/segment_" ++ format_0d 3 segment_num ++ ".wav".

(** The [while is_recording:] loop of both live scripts.  [is_recording]
    is [True] as long as control is inside the [try] block (its only
    assignment is in the handler), so both loop conditions depend on the
    clock alone.  Every call consumes one clock reading. *)
Fixpoint capture_loop (target : ThreadTarget) (session_dir : string)
    (SEGMENT_SECONDS : Q) (clock : list Q) (reads : list ReadResult)
    (segment_num : Z) (pt : LoopPoint) {struct clock}
  : list event * LoopExit :=
  match clock with
  | [] => ([], ExitScriptEnd)
  | now :: clock' =>
      match pt with
      | AtSegmentStart =>
          (* frames = []; segment_start = time.time() *)
          let (tr, ex) :=
            capture_loop target session_dir SEGMENT_SECONDS clock' reads
                         segment_num (InSegment now []) in
          (Print (recording_line segment_num) :: tr, ex)
      | InSegment segment_start frames =>
          if Qltb (now - segment_start) SEGMENT_SECONDS then
            match reads with
            | [] => ([], ExitScriptEnd)
            | ReadData data :: reads' =>
                let (tr, ex) :=
                  capture_loop target session_dir SEGMENT_SECONDS clock'
                               reads' segment_num
                               (InSegment segment_start (frames ++ [data])) in
                (StreamRead data :: tr, ex)
            | ReadInterrupt :: _ => ([], ExitInterrupt)
            end
          else
            match frames with
            | [] => ([], ExitBreak)
            | _ :: _ =>
                let audio_file := segment_wav session_dir segment_num in
                let (tr, ex) :=
                  capture_loop target session_dir SEGMENT_SECONDS clock'
                               reads (segment_num + 1)%Z AtSegmentStart in
                (WavSave audio_file frames
                   :: ThreadStart target audio_file segment_num :: tr, ex)
            end
      end
  end.

(** The [try] ... [except KeyboardInterrupt] around the loop, then the
    statements after it. *)
Definition capture_and_close (target : ThreadTarget) (session_dir : string)
    (SEGMENT_SECONDS : Q) (w : World) (closing : list event) : list event :=
  let (tr, ex) :=
    capture_loop target session_dir SEGMENT_SECONDS (clock w) (reads w) 1
                 AtSegmentStart in
  let shutdown := ([StreamStop; StreamClose; AudioTerminate] ++ closing)%list in
  match ex with
  | ExitBreak => (tr ++ shutdown)%list
  | ExitInterrupt =>
      (tr ++ [Print (nl ++ "✅ Recording completed")] ++ shutdown)%list
  | ExitScriptEnd => tr
  end.

(** [record_and_transcribe_with_diarization(model_size, segment_minutes)]
    of [transcript-with-diarization.py], as the trace it leaves. *)
Definition record_and_transcribe_with_diarization (w : World)
    (model_size : string) (segment_minutes : Z) : list event :=
  let SEGMENT_SECONDS := inject_Z (segment_minutes * 60) in
  let intro :=
    [ Print ("🔄 Using MLX Whisper '" ++ model_size
             ++ "' (Apple Silicon optimized)...");
      Print "🔄 Loading diarization model..." ] in
  let HF_TOKEN := hf_token w in
  if py_not HF_TOKEN then
    intro ++
    [ Print (nl ++ "❌ ERROR: HuggingFace token not found!");
      Print "   1. Get token: https://huggingface.co/settings/tokens";
      Print "   2. Accept terms: https://huggingface.co/pyannote/speaker-diarization-3.1";
      Print "   3. Create a .env file in your project root with:";
      Print ("      HF_TOKEN=your_token_here" ++ nl) ]
  else
    let token := match HF_TOKEN with Some t => t | None => "" end in
    let device :=
      match mps_probe w with
      | MpsAvailable =>
          [ PipelineTo "mps";
            Print "✅ Using Apple Silicon GPU (MPS) for diarization" ]
      | MpsUnavailable => []
      | MpsRaises e => [ Print ("⚠️  Running diarization on CPU: " ++ e) ]
      | MpsMoveRaises e =>
          [ PipelineTo "mps";
            Print ("⚠️  Running diarization on CPU: " ++ e) ]
      end in
    let session_dir := "transcriptions/session_" ++ session_stamp w in
    let master_file := session_dir ++ "/transcription_complete.txt" in
    let master_header :=
      (str_repeat "=" 70 ++ nl)
      ++ ("TRANSCRIPTION SESSION WITH SPEAKER DIARIZATION" ++ nl)
      ++ (header_stamp w ++ nl)
      ++ ("Model: " ++ model_size ++ " (MLX Whisper + Pyannote)" ++ nl)
      ++ (str_repeat "=" 70 ++ nl ++ nl) in
    intro
    ++ [ LoadPipeline "pyannote/speaker-diarization-3.0" token ]
    ++ device
    ++ (if transcriptions_exists w then [] else [MakeDirs "transcriptions"])
    ++ [ MakeDirs session_dir;
         WriteFile master_file master_header;
         AudioInit;
         StreamOpen;
         Print (nl ++ "🎤 Recording in progress (" ++ str_int segment_minutes
                   ++ " min segments)...");
         Print ("💡 Press Ctrl+C to stop" ++ nl) ]
    ++ capture_and_close transcribe_with_speakers session_dir
         SEGMENT_SECONDS w
         [ Print (nl ++ "✨ Session completed!");
           Print ("📁 Directory: " ++ session_dir);
           Print ("📄 Transcription: " ++ master_file);
           Print "💡 JSON files available for advanced analysis" ].

(** [record_and_transcribe_continuous(model_size, segment_minutes)] of
    [transcript-by-segment.py], as the trace it leaves. *)
Definition record_and_transcribe_continuous (w : World)
    (model_size : string) (segment_minutes : Z) : list event :=
  let SEGMENT_SECONDS := inject_Z (segment_minutes * 60) in
  let session_dir := "transcriptions/session_" ++ session_stamp w in
  let master_file := session_dir ++ "/transcription_complete.txt" in
  let master_header :=
    (str_repeat "=" 50 ++ nl)
    ++ ("TRANSCRIPTION SESSION - " ++ header_stamp w ++ nl)
    ++ ("Model: " ++ model_size ++ " (MLX - Apple Silicon)" ++ nl)
    ++ (str_repeat "=" 50 ++ nl ++ nl) in
  [ Print ("Using MLX Whisper '" ++ model_size
           ++ "' (Apple Silicon optimized)...") ]
  ++ (if transcriptions_exists w then [] else [MakeDirs "transcriptions"])
  ++ [ MakeDirs session_dir;
       WriteFile master_file master_header;
       AudioInit;
       StreamOpen;
       Print (nl ++ "🎤 Recording in progress (" ++ str_int segment_minutes
                 ++ " minute segments)...");
       Print ("💡 Press Ctrl+C to stop" ++ nl) ]
  ++ capture_and_close transcribe_segment session_dir SEGMENT_SECONDS w
       [ Print (nl ++ "✨ Session completed!");
         Print ("📁 Directory: " ++ session_dir);
         Print ("📄 Complete transcription: " ++ master_file) ].

(** *** Reading a trace *)

(** Events that belong to a recording: the session directory and master
    file, the audio device and stream, captured and saved audio, and the
    processing of a segment. *)
Definition is_recording_event (ev : event) : bool :=
  match ev with
  | MakeDirs _ | WriteFile _ _ | AudioInit | StreamOpen | StreamRead _
  | WavSave _ _ | ThreadStart _ _ _ => true
  | _ => false
  end.

(** The frames saved for segment number [k], if a WAV file was written. *)
Fixpoint saved_frames (session_dir : string) (k : Z) (tr : list event)
  : option (list string) :=
  match tr with
  | [] => None
  | WavSave path frames :: tr' =>
      if String.eqb path (segment_wav session_dir k) then Some frames
      else saved_frames session_dir k tr'
  | _ :: tr' => saved_frames session_dir k tr'
  end.

(** Chunks read from the stream, in order. *)
Fixpoint captured (tr : list event) : list string :=
  match tr with
  | [] => []
  | StreamRead data :: tr' => data :: captured tr'
  | _ :: tr' => captured tr'
  end.

(** Chunks that reached a WAV file, in order. *)
Fixpoint persisted (tr : list event) : list string :=
  match tr with
  | [] => []
  | WavSave _ frames :: tr' => frames ++ persisted tr'
  | _ :: tr' => persisted tr'
  end.

(** Chunks read since the last WAV file was written, [acc] being those
    already read when the trace starts. *)
Fixpoint unsaved_from (acc : list string) (tr : list event) : list string :=
  match tr with
  | [] => acc
  | StreamRead data :: tr' => unsaved_from (acc ++ [data]) tr'
  | WavSave _ _ :: tr' => unsaved_from [] tr'
  | _ :: tr' => unsaved_from acc tr'
  end.

Definition unsaved (tr : list event) : list string := unsaved_from [] tr.

(** Every processing start in the trace comes immediately after the WAV
    file it is given was written; [last] is the file written by the event
    just before, if that event was a save. *)
Fixpoint saved_then_started (last : option string) (tr : list event) : bool :=
  match tr with
  | [] => true
  | WavSave path _ :: tr' => saved_then_started (Some path) tr'
  | ThreadStart _ audio_file _ :: tr' =>
      match last with
      | Some path => String.eqb path audio_file
      | None => false
      end && saved_then_started None tr'
  | _ :: tr' => saved_then_started None tr'
  end.

Definition saved_before_processing (tr : list event) : bool :=
  saved_then_started None tr.

(** Recognises the line printed when the recording of a segment begins. *)
Definition is_segment_start (ev : event) : bool :=
  match ev with
  | Print s => String.prefix (nl ++ "🔴 Recording segment ") s
  | _ => false
  end.

Definition is_wav_save (ev : event) : bool :=
  match ev with
  | WavSave _ _ => true
  | _ => false
  end.

Definition segments_started (tr : list event) : nat :=
  List.length (filter is_segment_start tr).

Definition segments_saved (tr : list event) : nat :=
  List.length (filter is_wav_save tr).

Definition is_thread_start (ev : event) : bool :=
  match ev with
  | ThreadStart _ _ _ => true
  | _ => false
  end.

Definition segments_processed (tr : list event) : nat :=
  List.length (filter is_thread_start tr).

(** The events of the capture loop. *)
Definition is_capture_event (ev : event) : bool :=
  match ev with
  | StreamRead _ | WavSave _ _ | ThreadStart _ _ _ => true
  | Print _ => is_segment_start ev
  | _ => false
  end.

Definition capture_trace (tr : list event) : list event :=
  filter is_capture_event tr.

(** Frames held in memory at a point of the loop. *)
Definition pending (pt : LoopPoint) : list string :=
  match pt with
  | AtSegmentStart => []
  | InSegment _ frames => frames
  end.

(** Whether a segment is being recorded at a point of the loop. *)
Definition in_flight (pt : LoopPoint) : nat :=
  match pt with
  | AtSegmentStart => 0
  | InSegment _ _ => 1
  end.

(** "Every segment is persisted, also the one cut short": all audio that
    was captured has reached a WAV file. *)
Definition all_captured_audio_saved (tr : list event) : Prop :=
  captured tr = persisted tr.

(** ** The batch script [whipser-mp3.py] *)

(** Exceptions by the [except] clause that takes them. *)
Inductive PyExc :=
| FileNotFoundError                  (* taken by [except FileNotFoundError] *)
| OtherException (str_e : string)    (* any other [Exception]; [str(e)] *)
| NotAnException.                    (* [KeyboardInterrupt], [SystemExit] *)

Record BatchWorld := mkBatchWorld {
  home : string;                          (* [Path.home()] *)
  transcribe_outcome : PyExc + string;    (* raises, or [result['text']] *)
  write_outcome : option PyExc;           (* [open]/[write] raises, or not *)
  start_time : Q;
  end_time : Q
}.

Definition whisper_model : string := "mlx-community/whisper-large-v3-mlx".

Definition msg_not_found (audio_file_path : string) : string :=
  "Le fichier " ++ audio_file_path ++ " n'a pas été trouvé.".

Definition msg_generic (str_e : string) : string :=
  "Une erreur s'est produite lors de la transcription : " ++ str_e.

(** The body of the [try] block: events, then how it ended. *)
Definition batch_try (w : BatchWorld) (audio_file_path txt_file_path : string)
  : list event * option PyExc :=
  match transcribe_outcome w with
  | inl exc => ([Transcribe audio_file_path whisper_model], Some exc)
  | inr text =>
      match write_outcome w with
      | Some exc => ([Transcribe audio_file_path whisper_model], Some exc)
      | None =>
          ([ Transcribe audio_file_path whisper_model;
             WriteFile txt_file_path text;
             Print ("Transcription terminée. Voir le fichier '"
                    ++ txt_file_path ++ "'.") ], None)
      end
  end.

(** The whole script; the boolean tells whether it ran to its last line
    ([false]: an exception that no clause takes ended it). *)
Definition whipser_mp3 (w : BatchWorld) : list event * bool :=
  let downloads_folder := home w ++ "/Downloads" in
  let audio_file_path := downloads_folder ++ "/Recording.mp3" in
  let txt_file_path := downloads_folder ++ "/transcription.txt" in
  let (tr, raised) := batch_try w audio_file_path txt_file_path in
  let last :=
    [ PrintExecutionTime ((end_time w - start_time w) / 60) ] in
  match raised with
  | None => (Print audio_file_path :: tr ++ last, true)
  | Some FileNotFoundError =>
      (Print audio_file_path :: tr
         ++ [Print (msg_not_found audio_file_path)] ++ last, true)
  | Some (OtherException str_e) =>
      (Print audio_file_path :: tr ++ [Print (msg_generic str_e)] ++ last,
       true)
  | Some NotAnException => (Print audio_file_path :: tr, false)
  end.

(** ** The merge step of [transcribe_with_speakers] *)

(** An element of [result["segments"]], as far as the scripts read it. *)
Record WhisperSegment := mkWhisper {
  ws_start : Q;
  ws_end : Q;
  ws_text : string
}.

(** One iteration of [for segment in result["segments"]]: the dict that is
    appended.  [strip] stands for Python's [str.strip]. *)
Definition labelled_segment (strip : string -> string)
    (diarization : Diarization) (segment : WhisperSegment) : Segment :=
  let start_time := ws_start segment in
  let end_time := ws_end segment in
  let text := ws_text segment in
  let speaker := get_speaker_for_time diarization start_time end_time in
  mkSegment speaker start_time end_time (strip text).

(** The list [transcript_with_speakers] when the loop is over. *)
Definition transcript_with_speakers (strip : string -> string)
    (diarization : Diarization) (segments : list WhisperSegment)
  : list Segment :=
  fold_left
    (fun acc segment =>
       (acc ++ [labelled_segment strip diarization segment])%list)
    segments [].

(** [formatted_text], the text appended to the master file. *)
Definition formatted_text (strip : string -> string)
    (diarization : Diarization) (segments : list WhisperSegment)
    (segment_num : Z) : string :=
  format_transcript (transcript_with_speakers strip diarization segments)
                    segment_num.

(** [print_preview(segments)]; [slice60] stands for the slice [text[:60]]. *)
Definition print_preview (slice60 : string -> string)
    (segments : list Segment) : list event :=
  let preview :=
    if (3 <? List.length segments)%nat then firstn 3 segments
    else segments in
  map (fun seg =>
         Print ("   " ++ seg_speaker seg ++ ": " ++ slice60 (seg_text seg)
                ++ "..."))
      preview.

(** ** The single-recording script [transcribe-all.py] *)

(** What [record_and_transcribe] reads from the outside. *)
Record SingleWorld := mkSingleWorld {
  sw_transcriptions_exists : bool;     (* [os.path.exists("transcriptions")] *)
  sw_stamp : string;                   (* first [datetime.now().strftime] *)
  sw_header_stamp : string;            (* second [datetime.now().strftime] *)
  sw_reads : list ReadResult;          (* successive [stream.read] outcomes *)
  sw_text : string;                    (* [result["text"]] *)
  sw_segments : list WhisperSegment    (* [result["segments"]] *)
}.

(** The [while True:] loop inside the [try]: the chunks read, and the list
    [frames] if the interrupt arrived ([None]: the scripted world ended
    while the loop was still running). *)
Fixpoint record_until_interrupt (reads : list ReadResult)
    (frames : list string) : list event * option (list string) :=
  match reads with
  | [] => ([], None)
  | ReadData data :: reads' =>
      let (tr, res) := record_until_interrupt reads' (frames ++ [data]) in
      (StreamRead data :: tr, res)
  | ReadInterrupt :: _ => ([], Some frames)
  end.

(** One line of the details section; [format_2f] stands for the format
    [{x:.2f}] of a number. *)
Definition detail_line (format_2f : Q -> string) (segment : WhisperSegment)
  : string :=
  "[" ++ format_2f (ws_start segment) ++ "s - "
      ++ format_2f (ws_end segment) ++ "s] " ++ ws_text segment ++ nl.

(** Everything written to [output_file]. *)
Definition transcription_file (format_2f : Q -> string) (w : SingleWorld)
  : string :=
  (str_repeat "=" 50 ++ nl)
  ++ ("TRANSCRIPTION - " ++ sw_header_stamp w ++ nl)
  ++ (str_repeat "=" 50 ++ nl ++ nl)
  ++ (sw_text w ++ nl ++ nl)
  ++ (str_repeat "-" 50 ++ nl)
  ++ ("DETAILS WITH TIMESTAMPS:" ++ nl)
  ++ (str_repeat "-" 50 ++ nl ++ nl)
  ++ fold_left (fun written segment =>
                  written ++ detail_line format_2f segment)
               (sw_segments w) "".

(** [record_and_transcribe(model_size)] of [transcribe-all.py], as the
    trace it leaves. *)
Definition record_and_transcribe (format_2f : Q -> string) (w : SingleWorld)
    (model_size : string) : list event :=
  let audio_file := "transcriptions/audio_" ++ sw_stamp w ++ ".wav" in
  let output_file :=
    "transcriptions/transcription_" ++ sw_stamp w ++ ".txt" in
  let opening :=
    ([ Print ("Loading MLX Whisper model '" ++ model_size ++ "'...") ]
     ++ (if sw_transcriptions_exists w then []
         else [MakeDirs "transcriptions"])
     ++ [ AudioInit;
          StreamOpen;
          Print (nl ++ "🎤 Recording in progress...");
          Print ("💡 Press Ctrl+C to stop" ++ nl) ])%list in
  let (tr, res) := record_until_interrupt (sw_reads w) [] in
  match res with
  | None => (opening ++ tr)%list
  | Some frames =>
      (opening ++ tr
       ++ [ Print (nl ++ "✅ Recording completed");
            StreamStop;
            StreamClose;
            AudioTerminate;
            Print "💾 Saving audio...";
            WavSave audio_file frames;
            Print "📝 Transcription in progress (using Apple Silicon acceleration)...";
            Transcribe audio_file
                       ("mlx-community/whisper-" ++ model_size ++ "-mlx");
            WriteFile output_file (transcription_file format_2f w);
            Print (nl ++ "✅ Transcription saved: " ++ output_file);
            Print (nl ++ "📄 Transcribed text:" ++ nl ++ str_repeat "-" 50
                      ++ nl ++ sw_text w ++ nl ++ str_repeat "-" 50) ])%list
  end.

(** ** The access check [check-access.py] *)

Inductive AccessEvent :=
| APrint (s : string)                       (* [print(s)] *)
| AModelInfo (model : string) (token : option string).
                                            (* [api.model_info] *)

Record AccessWorld := mkAccessWorld {
  aw_token : option string;                 (* [os.getenv("HF_TOKEN")] *)
  aw_model_info : string -> option PyExc    (* [None]: the call returns *)
}.

Definition models_to_check : list string :=
  [ "pyannote/speaker-diarization-3.0";
    "pyannote/segmentation-3.0";
    "pyannote/embedding" ].

Definition line_granted (model : string) : string :=
  "✅ " ++ model ++ " - Access granted".

Definition line_denied (model : string) : string :=
  "❌ " ++ model ++ " - Access denied or not accepted".

(** The [for model in models_to_check] loop; the boolean tells whether it
    ran to its end ([false]: an exception that [except Exception] does not
    take ended the script). *)
Fixpoint check_models (w : AccessWorld) (models : list string)
  : list AccessEvent * bool :=
  match models with
  | [] => ([], true)
  | model :: models' =>
      match aw_model_info w model with
      | None =>
          let (tr, ok) := check_models w models' in
          (AModelInfo model (aw_token w) :: APrint (line_granted model) :: tr,
           ok)
      | Some NotAnException => ([AModelInfo model (aw_token w)], false)
      | Some _ =>
          let (tr, ok) := check_models w models' in
          (AModelInfo model (aw_token w) :: APrint (line_denied model) :: tr,
           ok)
      end
  end.

(** The whole script. *)
Definition check_access (w : AccessWorld) : list AccessEvent * bool :=
  let (tr, ok) := check_models w models_to_check in
  (APrint ("Token found: "
           ++ (if py_not (aw_token w) then "❌ No" else "✅ Yes")) :: tr,
   ok).

(** The lines printed, in order. *)
Fixpoint printed (tr : list AccessEvent) : list string :=
  match tr with
  | [] => []
  | APrint s :: tr' => s :: printed tr'
  | AModelInfo _ _ :: tr' => printed tr'
  end.

(** The models queried, in order. *)
Fixpoint queried (tr : list AccessEvent) : list string :=
  match tr with
  | [] => []
  | APrint _ :: tr' => queried tr'
  | AModelInfo model _ :: tr' => model :: queried tr'
  end.

(** ** Reading text back *)

(** The number a string of decimal digits denotes. *)
Definition parse_decimal (s : string) : option N :=
  option_map N.of_uint (NilZero.uint_of_string s).

(** The paths of the WAV files written, in order. *)
Fixpoint saved_paths (tr : list event) : list string :=
  match tr with
  | [] => []
  | WavSave path _ :: tr' => path :: saved_paths tr'
  | _ :: tr' => saved_paths tr'
  end.

(** The file and segment number given to each processing thread. *)
Fixpoint processed_segments (tr : list event) : list (string * Z) :=
  match tr with
  | [] => []
  | ThreadStart _ audio_file segment_num :: tr' =>
      (audio_file, segment_num) :: processed_segments tr'
  | _ :: tr' => processed_segments tr'
  end.

(** The segment numbers [n], [n + 1], ..., [count] of them. *)
Fixpoint numbers_from (n : Z) (count : nat) : list Z :=
  match count with
  | O => []
  | S count' => n :: numbers_from (n + 1)%Z count'
  end.

(** The same turn, [delta] seconds later. *)
Definition shift_turn (delta : Q) (it : Turn * string) : Turn * string :=
  (mkTurn (turn_start (fst it) + delta)%Q (turn_end (fst it) + delta)%Q,
   snd it).

(** No two neighbours in the list are equal. *)
Fixpoint adjacent_distinct (l : list string) : Prop :=
  match l with
  | [] => True
  | a :: l' =>
      match l' with
      | [] => True
      | b :: _ => a <> b /\ adjacent_distinct l'
      end
  end.

(** The value of [current_speaker] after the loop has gone through
    [segments], having started with [prev]. *)
Definition speaker_after (prev : option string) (segments : list Segment)
  : option string :=
  fold_left (fun _ seg => Some (seg_speaker seg)) segments prev.

(** The chunks the device delivers before the interrupt arrives. *)
Fixpoint chunks_before_interrupt (reads : list ReadResult) : list string :=
  match reads with
  | ReadData data :: reads' => data :: chunks_before_interrupt reads'
  | _ => []
  end.

(** The line of the access check for one model. *)
Definition access_line (w : AccessWorld) (model : string) : string :=
  match aw_model_info w model with
  | None => line_granted model
  | Some _ => line_denied model
  end.

(** ** Sample inputs *)

(** The example of the specification: turns [0,10] of A and [10,20] of B. *)
Definition spec_turns : Diarization :=
  [ (mkTurn 0 10, "A"); (mkTurn 10 20, "B") ].

(** Two speakers with the same total over the window [0,15]. *)
Definition tied_turns : Diarization :=
  [ (mkTurn 20 30, "B"); (mkTurn 0 10, "A"); (mkTurn 5 15, "B") ].

(** A speaker whose turns only touch the ends of the window [8,15]. *)
Definition touching_turns : Diarization :=
  [ (mkTurn 0 8, "C"); (mkTurn 0 10, "A"); (mkTurn 15 20, "C") ].

(** The example of the specification for [format_transcript]. *)
Definition spec_segments : list Segment :=
  [ mkSegment "A" 0 2 "hi"; mkSegment "A" 2 5 "there";
    mkSegment "B" 5 6 "hello" ].

(** Segments whose start times go backwards. *)
Definition unsorted_segments : list Segment :=
  [ mkSegment "A" 5 6 "later"; mkSegment "A" 0 2 "earlier";
    mkSegment "B" 2 5 "middle"; mkSegment "A" 1 2 "again" ].

(** No token in the environment. *)
Definition world_without_token : World :=
  mkWorld None MpsAvailable false "20250101_000000" "2025-01-01 00:00:00"
          [0; 1; 2; 3] [ReadData "a"; ReadData "b"].

(** One-minute segments; the clock passes the minute after two chunks, and
    the interrupt arrives while the second segment is being recorded. *)
Definition world_interrupted : World :=
  mkWorld (Some "hf_token") MpsUnavailable true "S" "H"
          [0; 1; 2; 70; 71; 72; 73; 74]
          [ReadData "a"; ReadData "b"; ReadData "c"; ReadInterrupt].

(** The input file is missing and the collaborator says so. *)
Definition world_missing_file : BatchWorld :=
  mkBatchWorld "/Users/me" (inl FileNotFoundError) None 0 60.

(** * Properties *)

(** ** Numbers *)

Section Numbers.

Lemma Qltb_lt (a b : Q) : Qltb a b = true <-> (a < b)%Q.
Proof. unfold Qltb, Qlt. apply Z.ltb_lt. Qed.

Lemma Qltb_ge (a b : Q) : Qltb a b = false <-> (b <= a)%Q.
Proof. unfold Qltb, Qle. rewrite Z.ltb_ge. reflexivity. Qed.

Lemma py_max_Qmax (a b : Q) : (py_max a b == Qmax a b)%Q.
Proof.
  unfold py_max. destruct (Qltb a b) eqn:E.
  - apply Qltb_lt in E. symmetry. apply Q.max_r. lra.
  - apply Qltb_ge in E. symmetry. apply Q.max_l. exact E.
Qed.

Lemma py_min_Qmin (a b : Q) : (py_min a b == Qmin a b)%Q.
Proof.
  unfold py_min. destruct (Qltb b a) eqn:E.
  - apply Qltb_lt in E. symmetry. apply Q.min_r. lra.
  - apply Qltb_ge in E. symmetry. apply Q.min_l. exact E.
Qed.

Lemma overlap_nonneg (turn : Turn) (s e : Q) : (0 <= overlap turn s e)%Q.
Proof. unfold overlap. apply Q.le_max_l. Qed.

(** The test of the loop body is the test "the overlap is positive", and
    the duration it then adds is the overlap. *)
Lemma duration_is_overlap (turn : Turn) (s e : Q) :
  let overlap_start := py_max (turn_start turn) s in
  let overlap_end := py_min (turn_end turn) e in
  if Qltb overlap_start overlap_end
  then (overlap_end - overlap_start == overlap turn s e)%Q
       /\ (0 < overlap turn s e)%Q
  else (overlap turn s e == 0)%Q.
Proof.
  intros os oe. unfold overlap.
  assert (Hs : (os == Qmax (turn_start turn) s)%Q) by apply py_max_Qmax.
  assert (He : (oe == Qmin (turn_end turn) e)%Q) by apply py_min_Qmin.
  destruct (Qltb os oe) eqn:E.
  - apply Qltb_lt in E.
    assert (Hm : (Qmax 0 (Qmin (turn_end turn) e - Qmax (turn_start turn) s)
                  == Qmin (turn_end turn) e - Qmax (turn_start turn) s)%Q).
    { apply Q.max_r. lra. }
    split; lra.
  - apply Qltb_ge in E. apply Q.max_l. lra.
Qed.

Lemma positive_overlap_test (turn : Turn) (s e : Q) :
  Qltb (py_max (turn_start turn) s) (py_min (turn_end turn) e)
  = Qltb 0 (overlap turn s e).
Proof.
  pose proof (duration_is_overlap turn s e) as H. cbv zeta in H.
  destruct (Qltb (py_max _ _) (py_min _ _)).
  - symmetry. apply Qltb_lt. tauto.
  - symmetry. apply Qltb_ge. lra.
Qed.

End Numbers.

(** ** The insertion-ordered dict *)

Section DictFacts.

Lemma lookup_set_same (d : Dict.t) (k : string) (v : Q) :
  Dict.lookup (Dict.set d k v) k = Some v.
Proof.
  induction d as [|[k' v'] d IH]; simpl.
  - now rewrite String.eqb_refl.
  - destruct (String.eqb k' k) eqn:E; simpl; rewrite E; auto.
Qed.

Lemma lookup_set_other (d : Dict.t) (k k' : string) (v : Q) :
  k <> k' -> Dict.lookup (Dict.set d k v) k' = Dict.lookup d k'.
Proof.
  intros Hne. induction d as [|[k0 v0] d IH]; simpl.
  - apply String.eqb_neq in Hne. now rewrite Hne.
  - destruct (String.eqb k0 k) eqn:E; simpl.
    + apply String.eqb_eq in E. subst k0.
      apply String.eqb_neq in Hne. now rewrite Hne.
    + now rewrite IH.
Qed.

Lemma keys_set (d : Dict.t) (k : string) (v : Q) :
  Dict.keys (Dict.set d k v)
  = if existsb (String.eqb k) (Dict.keys d) then Dict.keys d
    else (Dict.keys d ++ [k])%list.
Proof.
  induction d as [|[k' v'] d IH]; simpl; auto.
  rewrite (String.eqb_sym k k').
  destruct (String.eqb k' k); simpl; auto.
  rewrite IH. now destruct (existsb _ _).
Qed.

Lemma lookup_in_keys (d : Dict.t) (k : string) :
  In k (Dict.keys d) <-> exists v, Dict.lookup d k = Some v.
Proof.
  induction d as [|[k' v'] d IH]; simpl.
  - split; [tauto | intros [v H]; discriminate].
  - destruct (String.eqb_spec k' k) as [->|Hne].
    + split; eauto.
    + rewrite IH. split; [intros [H|H]; [congruence | exact H] | auto].
Qed.

Lemma existsb_eqb_In (k : string) (l : list string) :
  existsb (String.eqb k) l = true <-> In k l.
Proof.
  rewrite existsb_exists. split.
  - intros [x [Hx E]]. apply String.eqb_eq in E. now subst.
  - intros H. exists k. split; auto. apply String.eqb_refl.
Qed.

End DictFacts.

(** ** The accumulation loop *)

Section Accumulation.

Variables s e : Q.

Lemma step_get (d : Dict.t) (it : Turn * string) (sp : string) :
  (Dict.get (speaker_time_step s e d it) sp 0
   == Dict.get d sp 0 + share it sp s e)%Q.
Proof.
  destruct it as [turn speaker]. unfold speaker_time_step, share. simpl.
  pose proof (duration_is_overlap turn s e) as H. cbv zeta in H.
  destruct (Qltb (py_max _ _) (py_min _ _)).
  - destruct H as [Hd _]. unfold Dict.get at 1.
    destruct (String.eqb_spec speaker sp) as [->|Hne].
    + rewrite lookup_set_same. lra.
    + rewrite lookup_set_other by exact Hne.
      fold (Dict.get d sp 0). lra.
  - destruct (String.eqb speaker sp); lra.
Qed.

Lemma step_positive (d : Dict.t) (it : Turn * string) :
  positive_values d -> positive_values (speaker_time_step s e d it).
Proof.
  intros Hd. destruct it as [turn speaker]. unfold speaker_time_step.
  pose proof (duration_is_overlap turn s e) as H. cbv zeta in H.
  destruct (Qltb (py_max _ _) (py_min _ _)); [|exact Hd].
  destruct H as [Hdur Hpos]. intros k v Hk.
  destruct (String.eqb_spec speaker k) as [->|Hne].
  - rewrite lookup_set_same in Hk. injection Hk as <-.
    assert (0 <= Dict.get d k 0)%Q.
    { unfold Dict.get. destruct (Dict.lookup d k) eqn:E; [|lra].
      apply Hd in E. lra. }
    lra.
  - rewrite lookup_set_other in Hk by exact Hne. eapply Hd; eauto.
Qed.

Lemma step_keys (d : Dict.t) (turn : Turn) (speaker : string) :
  Dict.keys (speaker_time_step s e d (turn, speaker))
  = if Qltb 0 (overlap turn s e) then
      if existsb (String.eqb speaker) (Dict.keys d) then Dict.keys d
      else (Dict.keys d ++ [speaker])%list
    else Dict.keys d.
Proof.
  unfold speaker_time_step. rewrite positive_overlap_test.
  destruct (Qltb 0 (overlap turn s e)); auto. apply keys_set.
Qed.

(** The loop from any starting dict. *)
Lemma loop_get (T : Diarization) (d : Dict.t) (sp : string) :
  (Dict.get (fold_left (speaker_time_step s e) T d) sp 0
   == Dict.get d sp 0 + total_overlap T sp s e)%Q.
Proof.
  revert d.
  induction T as [|[turn speaker] T IH]; intros d;
    cbn [fold_left total_overlap].
  - lra.
  - pose proof (IH (speaker_time_step s e d (turn, speaker))) as H1.
    pose proof (step_get d (turn, speaker) sp) as H2.
    unfold share in H2. cbn [fst snd] in H2. lra.
Qed.

Lemma loop_positive (T : Diarization) (d : Dict.t) :
  positive_values d ->
  positive_values (fold_left (speaker_time_step s e) T d).
Proof.
  revert d. induction T as [|it T IH]; intros d Hd; simpl; auto.
  apply IH. now apply step_positive.
Qed.

Lemma loop_keys (T : Diarization) (d : Dict.t) :
  Dict.keys (fold_left (speaker_time_step s e) T d)
  = first_seen T s e (Dict.keys d).
Proof.
  revert d.
  induction T as [|[turn speaker] T IH]; intros d;
    cbn [fold_left first_seen]; auto.
  rewrite IH, step_keys.
  destruct (Qltb 0 (overlap turn s e)); auto.
  now destruct (existsb _ _).
Qed.

Lemma total_overlap_nonneg (T : Diarization) (sp : string) :
  (0 <= total_overlap T sp s e)%Q.
Proof.
  induction T as [|[turn speaker] T IH]; simpl; [lra|].
  pose proof (overlap_nonneg turn s e).
  destruct (String.eqb speaker sp); lra.
Qed.

(** A speaker's total is positive exactly when one of its turns meets
    the window. *)
Lemma total_overlap_positive (T : Diarization) (sp : string) :
  (0 < total_overlap T sp s e)%Q
  <-> exists turn, In (turn, sp) T /\ (0 < overlap turn s e)%Q.
Proof.
  induction T as [|[turn speaker] T IH]; simpl.
  - split; [lra | intros [t [[] _]]].
  - pose proof (overlap_nonneg turn s e) as Ho.
    pose proof (total_overlap_nonneg T sp) as Ht.
    destruct (String.eqb_spec speaker sp) as [->|Hne].
    + split.
      * intros H. destruct (Qlt_le_dec 0 (overlap turn s e)) as [Hp|Hz].
        -- exists turn. auto.
        -- assert (Hr : (0 < total_overlap T sp s e)%Q) by lra.
           apply IH in Hr. destruct Hr as [t [Hin Hp]]. eauto.
      * intros [t [[Heq|Hin] Hp]].
        -- injection Heq as <-. lra.
        -- assert (0 < total_overlap T sp s e)%Q by (apply IH; eauto).
           lra.
    + split.
      * intros H. assert (Hr : (0 < total_overlap T sp s e)%Q) by lra.
        apply IH in Hr. destruct Hr as [t [Hin Hp]]. eauto.
      * intros [t [[Heq|Hin] Hp]]; [congruence|].
        assert (0 < total_overlap T sp s e)%Q by (apply IH; eauto). lra.
Qed.

(** The finished dict: values are the totals, keys are the speakers with
    a positive total, in order of first insertion. *)
Lemma speaker_time_get (T : Diarization) (sp : string) :
  (Dict.get (speaker_time_of T s e) sp 0 == total_overlap T sp s e)%Q.
Proof.
  unfold speaker_time_of. pose proof (loop_get T Dict.empty sp) as H.
  unfold Dict.get at 2 in H. simpl in H. lra.
Qed.

Lemma speaker_time_keys (T : Diarization) :
  Dict.keys (speaker_time_of T s e) = first_seen T s e [].
Proof. unfold speaker_time_of. now rewrite loop_keys. Qed.

Lemma speaker_time_positive (T : Diarization) :
  positive_values (speaker_time_of T s e).
Proof.
  apply loop_positive. intros k v H. discriminate.
Qed.

Lemma key_iff_positive_total (T : Diarization) (sp : string) :
  In sp (Dict.keys (speaker_time_of T s e))
  <-> (0 < total_overlap T sp s e)%Q.
Proof.
  pose proof (speaker_time_get T sp) as Hg.
  pose proof (total_overlap_nonneg T sp) as Hn.
  rewrite lookup_in_keys. unfold Dict.get in Hg. split.
  - intros [v Hv]. rewrite Hv in Hg.
    apply speaker_time_positive in Hv. lra.
  - intros Hp. destruct (Dict.lookup _ sp) as [v|]; [eauto | lra].
Qed.

End Accumulation.

(** ** [max] with a key function *)

Section MaxKey.

Variable f : string -> Q.

(** The running best of [max] is the first greatest element seen so far:
    everything before it is strictly smaller, everything after it is at
    most as great. *)
Lemma py_max_from_first (rest pre : list string) (best : string)
    (mid : list string) :
  (forall k, In k pre -> (f k < f best)%Q) ->
  (forall k, In k mid -> (f k <= f best)%Q) ->
  exists pre' post',
    (pre ++ best :: mid ++ rest)%list
    = (pre' ++ py_max_from f best rest :: post')%list
    /\ (forall k, In k pre' -> (f k < f (py_max_from f best rest))%Q)
    /\ (forall k, In k post' -> (f k <= f (py_max_from f best rest))%Q).
Proof.
  revert pre best mid.
  induction rest as [|k rest IH]; intros pre best mid Hpre Hmid; simpl.
  - exists pre, mid. rewrite app_nil_r. auto.
  - destruct (Qltb (f best) (f k)) eqn:E.
    + apply Qltb_lt in E.
      destruct (IH (pre ++ best :: mid)%list k []) as (p & q & Heq & Hp & Hq).
      * intros x Hx. apply in_app_or in Hx. destruct Hx as [Hx|[<-|Hx]].
        -- apply Hpre in Hx. lra.
        -- exact E.
        -- apply Hmid in Hx. lra.
      * intros x [].
      * exists p, q. split; [|auto].
        rewrite <- Heq. rewrite <- app_assoc. reflexivity.
    + apply Qltb_ge in E.
      destruct (IH pre best (mid ++ [k])%list) as (p & q & Heq & Hp & Hq).
      * exact Hpre.
      * intros x Hx. apply in_app_or in Hx.
        destruct Hx as [Hx|[<-|[]]]; auto.
      * exists p, q. split; [|auto].
        rewrite <- Heq. rewrite <- app_assoc. reflexivity.
Qed.

End MaxKey.

(** ** What [get_speaker_for_time] returns *)

Section Attribution.

Variables (T : Diarization) (s e : Q).

Let r := get_speaker_for_time T s e.

(** Either nothing was accumulated and the sentinel is returned, or the
    result is the first key of the dict whose total is greatest. *)
Lemma result_cases :
  (speaker_time_of T s e = [] /\ r = unknown_speaker)
  \/ exists pre post,
       first_seen T s e [] = (pre ++ r :: post)%list
       /\ (forall k, In k pre ->
             (total_overlap T k s e < total_overlap T r s e)%Q)
       /\ (forall k, In k post ->
             (total_overlap T k s e <= total_overlap T r s e)%Q).
Proof.
  subst r. unfold get_speaker_for_time.
  rewrite <- speaker_time_keys.
  destruct (speaker_time_of T s e) as [|[k0 v0] d] eqn:E.
  - left. auto.
  - right. cbn [Dict.is_empty Dict.keys map fst py_max_key].
    rewrite <- E.
    set (f := fun k => Dict.get (speaker_time_of T s e) k 0).
    destruct (py_max_from_first f (map fst d) [] k0 [])
      as (p & q & Heq & Hp & Hq).
    + intros k [].
    + intros k [].
    + set (best := py_max_from f k0 (map fst d)) in *.
      exists p, q. simpl in Heq. split; [exact Heq|].
      pose proof (speaker_time_get s e T best) as Hbest.
      split; intros k Hk; pose proof (speaker_time_get s e T k) as Hgk.
      * apply Hp in Hk. unfold f in Hk. lra.
      * apply Hq in Hk. unfold f in Hk. lra.
Qed.

End Attribution.

Lemma result_is_key_or_unknown (T : Diarization) (s e : Q) :
  (speaker_time_of T s e = []
   /\ get_speaker_for_time T s e = unknown_speaker)
  \/ In (get_speaker_for_time T s e) (Dict.keys (speaker_time_of T s e)).
Proof.
  destruct (result_cases T s e) as [H|(p & q & Heq & _)]; [left; exact H|].
  right. rewrite speaker_time_keys, Heq. apply in_elt.
Qed.

Lemma total_zero_of_no_overlap (T : Diarization) (s e : Q) (sp : string) :
  (forall turn, In (turn, sp) T -> (overlap turn s e == 0)%Q) ->
  (total_overlap T sp s e == 0)%Q.
Proof.
  intros Hz. pose proof (total_overlap_nonneg s e T sp) as Hn.
  destruct (Qlt_le_dec 0 (total_overlap T sp s e)) as [Hp|Hle]; [|lra].
  apply total_overlap_positive in Hp. destruct Hp as [turn [Hin Hp]].
  apply Hz in Hin. lra.
Qed.

Example spec_example_overlap : get_speaker_for_time spec_turns 8 15 = "B".
Proof. reflexivity. Qed.

Example spec_example_empty :
  get_speaker_for_time [] 0 5 = "Unknown Speaker".
Proof. reflexivity. Qed.



(** C2. A turn that ends exactly where the window starts, or starts exactly
    where the window ends, has overlap zero; the loop body leaves the dict
    as it was, so the turn adds nothing to its speaker's total and the
    result is the one obtained without that turn. *)
Theorem abutting_turn_counts_zero (T1 T2 : Diarization) (turn : Turn)
    (sp : string) (s e : Q) :
  (turn_end turn == s)%Q \/ (turn_start turn == e)%Q ->
  (overlap turn s e == 0)%Q
  /\ (forall d, speaker_time_step s e d (turn, sp) = d)
  /\ speaker_time_of (T1 ++ (turn, sp) :: T2)%list s e
     = speaker_time_of (T1 ++ T2)%list s e
  /\ get_speaker_for_time (T1 ++ (turn, sp) :: T2)%list s e
     = get_speaker_for_time (T1 ++ T2)%list s e.
Proof.
  intros Habut.
  assert (Hz : (overlap turn s e == 0)%Q).
  { unfold overlap. apply Q.max_l.
    pose proof (Q.le_min_l (turn_end turn) e).
    pose proof (Q.le_min_r (turn_end turn) e).
    pose proof (Q.le_max_l (turn_start turn) s).
    pose proof (Q.le_max_r (turn_start turn) s).
    destruct Habut; lra. }
  assert (Hstep : forall d, speaker_time_step s e d (turn, sp) = d).
  { intros d. unfold speaker_time_step. rewrite positive_overlap_test.
    replace (Qltb 0 (overlap turn s e)) with false; [reflexivity|].
    symmetry. apply Qltb_ge. lra. }
  assert (Hdict : speaker_time_of (T1 ++ (turn, sp) :: T2)%list s e
                  = speaker_time_of (T1 ++ T2)%list s e).
  { unfold speaker_time_of. rewrite !fold_left_app.
    cbn [fold_left]. now rewrite Hstep. }
  repeat split; auto.
  unfold get_speaker_for_time. now rewrite Hdict.
Qed.

Lemma abutting_turn_counts_zero_witness :
  (overlap (mkTurn 0 8) 8 15 == 0)%Q
  /\ get_speaker_for_time ((mkTurn 0 8, "C") :: spec_turns) 8 15
     = get_speaker_for_time spec_turns 8 15.
Proof.
  destruct (abutting_turn_counts_zero [] spec_turns (mkTurn 0 8) "C" 8 15)
    as (Hz & _ & _ & Hr).
  - left. reflexivity.
  - split; [exact Hz | exact Hr].
Defined.



(** C10. A label other than "Unknown Speaker" is returned only for a
    speaker whose accumulated overlap is strictly positive; a speaker all
    of whose turns have overlap zero has no entry in the dict and is not
    what [max] selects (the result can equal its label only as the
    sentinel). *)
Theorem returned_speaker_has_positive_overlap (T : Diarization) (s e : Q) :
  (get_speaker_for_time T s e <> "Unknown Speaker" ->
   (0 < total_overlap T (get_speaker_for_time T s e) s e)%Q
   /\ exists v, Dict.lookup (speaker_time_of T s e)
                            (get_speaker_for_time T s e) = Some v
                /\ (0 < v)%Q)
  /\ forall sp,
       (forall turn, In (turn, sp) T -> (overlap turn s e == 0)%Q) ->
       ~ In sp (Dict.keys (speaker_time_of T s e))
       /\ Dict.lookup (speaker_time_of T s e) sp = None
       /\ (get_speaker_for_time T s e = sp -> sp = "Unknown Speaker").
Proof.
  split.
  - intros Hne.
    destruct (result_is_key_or_unknown T s e) as [[_ H]|Hin]; [contradiction|].
    split; [now apply key_iff_positive_total|].
    apply lookup_in_keys in Hin. destruct Hin as [v Hv]. exists v.
    split; [exact Hv|]. eapply speaker_time_positive; eauto.
  - intros sp Hz.
    assert (Hnot : ~ In sp (Dict.keys (speaker_time_of T s e))).
    { intros Hin. apply key_iff_positive_total in Hin.
      pose proof (total_zero_of_no_overlap T s e sp Hz). lra. }
    split; [exact Hnot|]. split.
    + destruct (Dict.lookup (speaker_time_of T s e) sp) as [v|] eqn:E; auto.
      exfalso. apply Hnot. apply lookup_in_keys. eauto.
    + intros Heq.
      destruct (result_is_key_or_unknown T s e) as [[_ H]|Hin].
      * unfold unknown_speaker in H. congruence.
      * rewrite Heq in Hin. contradiction.
Qed.

Lemma returned_speaker_has_positive_overlap_witness :
  get_speaker_for_time touching_turns 8 15 = "A"
  /\ (0 < total_overlap touching_turns "A" 8 15)%Q
  /\ Dict.lookup (speaker_time_of touching_turns 8 15) "C" = None.
Proof.
  destruct (returned_speaker_has_positive_overlap touching_turns 8 15)
    as [Hpos Hzero].
  split; [reflexivity|]. split.
  - apply Hpos. discriminate.
  - apply (Hzero "C"). intros turn [H|[H|[H|[]]]].
    + injection H as <-. reflexivity.
    + discriminate.
    + injection H as <-. reflexivity.
Defined.

(** ** [format_time] *)

Section FloorFacts.

Lemma Qfloor_unique (x : Q) (z : Z) :
  (inject_Z z <= x)%Q -> (x < inject_Z (z + 1))%Q -> Qfloor x = z.
Proof.
  intros Hlo Hhi.
  pose proof (Qfloor_le x) as H1. pose proof (Qlt_floor x) as H2.
  assert (Ha : (inject_Z z < inject_Z (Qfloor x + 1))%Q) by lra.
  assert (Hb : (inject_Z (Qfloor x) < inject_Z (z + 1))%Q) by lra.
  rewrite <- Zlt_Qlt in Ha, Hb. lia.
Qed.

(** [int] of a whole number is that number. *)
Lemma py_int_inject_Z (z : Z) : py_int (inject_Z z) = z.
Proof. unfold py_int. simpl. apply Z.quot_1_r. Qed.

(** On a number that is not negative, [int] is the floor. *)
Lemma py_int_nonneg (x : Q) : (0 <= x)%Q -> py_int x = Qfloor x.
Proof.
  intros H. unfold py_int, Qfloor. destruct x as [n d]. simpl.
  unfold Qle in H. simpl in H. apply Z.quot_div_nonneg; lia.
Qed.

(** Whole seconds split as hours, minutes and seconds. *)
Lemma floor_split (x : Q) :
  let t := Qfloor x in
  Qfloor (x / 3600) = (t / 3600)%Z
  /\ Qfloor (py_mod x 3600 / 60) = ((t mod 3600) / 60)%Z
  /\ (0 <= py_mod x 60)%Q
  /\ Qfloor (py_mod x 60) = (t mod 60)%Z.
Proof.
  intros t.
  pose proof (Qfloor_le x) as Hlo. pose proof (Qlt_floor x) as Hhi.
  fold t in Hlo, Hhi. rewrite inject_Z_plus in Hhi.
  change (inject_Z 1) with 1%Q in Hhi.
  assert (Hdiv : forall n : Z, (0 < n)%Z ->
            Qfloor (x / inject_Z n) = (t / n)%Z
            /\ (0 <= x - inject_Z n * inject_Z (t / n))%Q
            /\ Qfloor (x - inject_Z n * inject_Z (t / n)) = (t mod n)%Z).
  { intros n Hn.
    pose proof (Z.div_mod t n ltac:(lia)) as Hdm.
    pose proof (Z.mod_pos_bound t n Hn) as Hb.
    assert (Ht : (inject_Z t
                  == inject_Z n * inject_Z (t / n) + inject_Z (t mod n))%Q).
    { rewrite <- inject_Z_mult, <- inject_Z_plus, <- Hdm. reflexivity. }
    assert (Hr0 : (0 <= inject_Z (t mod n))%Q)
      by (change 0%Q with (inject_Z 0); rewrite <- Zle_Qle; lia).
    assert (Hr1 : (inject_Z (t mod n) + 1 <= inject_Z n)%Q).
    { change 1%Q with (inject_Z 1). rewrite <- inject_Z_plus, <- Zle_Qle.
      lia. }
    assert (Hnpos : (0 < inject_Z n)%Q)
      by (change 0%Q with (inject_Z 0); rewrite <- Zlt_Qlt; lia).
    split; [|split].
    - apply Qfloor_unique.
      + apply Qle_shift_div_l; [exact Hnpos|]. lra.
      + apply Qlt_shift_div_r; [exact Hnpos|].
        rewrite inject_Z_plus. change (inject_Z 1) with 1%Q. lra.
    - lra.
    - apply Qfloor_unique.
      + lra.
      + rewrite inject_Z_plus. change (inject_Z 1) with 1%Q. lra. }
  destruct (Hdiv 3600%Z ltac:(lia)) as (H1 & _ & H2).
  destruct (Hdiv 60%Z ltac:(lia)) as (H0 & H3 & H4).
  change (inject_Z 3600) with 3600%Q in *.
  change (inject_Z 60) with 60%Q in *.
  split; [exact H1|]. unfold py_mod. rewrite H1, H0.
  split; [|split].
  - pose proof (Z.div_mod t 3600 ltac:(lia)) as Hdm.
    pose proof (Z.div_mod (t mod 3600) 60 ltac:(lia)) as Hdm2.
    pose proof (Z.mod_pos_bound (t mod 3600) 60 ltac:(lia)) as Hb2.
    set (h := (t / 3600)%Z) in *. set (r := (t mod 3600)%Z) in *.
    set (m := (r / 60)%Z) in *. set (c := (r mod 60)%Z) in *.
    assert (Ht : (inject_Z t
                  == 3600 * inject_Z h + 60 * inject_Z m + inject_Z c)%Q).
    { change 3600%Q with (inject_Z 3600). change 60%Q with (inject_Z 60).
      rewrite <- !inject_Z_mult, <- !inject_Z_plus.
      apply inject_Z_injective. lia. }
    assert (Hc0 : (0 <= inject_Z c)%Q)
      by (change 0%Q with (inject_Z 0); rewrite <- Zle_Qle; lia).
    assert (Hc1 : (inject_Z c + 1 <= 60)%Q).
    { change 1%Q with (inject_Z 1). change 60%Q with (inject_Z 60).
      rewrite <- inject_Z_plus, <- Zle_Qle. lia. }
    apply Qfloor_unique.
    + apply Qle_shift_div_l; lra.
    + apply Qlt_shift_div_r; [lra|].
      rewrite inject_Z_plus. change (inject_Z 1) with 1%Q. lra.
  - exact H3.
  - exact H4.
Qed.

End FloorFacts.



(** ** [format_transcript] *)

Section StringFacts.

Lemma str_app_assoc (a b c : string) : (a ++ b) ++ c = a ++ b ++ c.
Proof. induction a as [|ch a IH]; simpl; [reflexivity | now rewrite IH]. Qed.

Lemma str_app_nil_r (a : string) : a ++ "" = a.
Proof. induction a as [|ch a IH]; simpl; [reflexivity | now rewrite IH]. Qed.

End StringFacts.

Create Rewrite HintDb str_norm.
#[local] Hint Rewrite str_app_assoc str_app_nil_r : str_norm.

Ltac str_norm := autorewrite with str_norm; try reflexivity.

Section Formatting.

(** One pass through the loop body: what is appended, what is remembered. *)
Lemma format_step_output (st : FmtState) (seg : Segment) :
  output (format_step st seg)
  = output st ++ emitted (current_speaker st) seg.
Proof.
  unfold format_step, emitted.
  destruct (speaker_differs (seg_speaker seg) (current_speaker st));
    [|reflexivity].
  destruct (current_speaker st); cbn [output current_speaker]; str_norm.
Qed.

Lemma format_step_speaker (st : FmtState) (seg : Segment) :
  current_speaker (format_step st seg) = Some (seg_speaker seg).
Proof.
  unfold format_step.
  destruct (speaker_differs (seg_speaker seg) (current_speaker st)) eqn:E;
    [reflexivity|].
  cbn [current_speaker].
  destruct (current_speaker st) as [c|]; simpl in E; [|discriminate].
  apply negb_false_iff, String.eqb_eq in E. now subst.
Qed.

Lemma format_loop_output (segments : list Segment) (st : FmtState) :
  output (fold_left format_step segments st)
  = output st ++ emitted_from (current_speaker st) segments.
Proof.
  revert st.
  induction segments as [|seg rest IH]; intros st;
    cbn [fold_left emitted_from].
  - now rewrite str_app_nil_r.
  - rewrite IH, format_step_output, format_step_speaker. str_norm.
Qed.

Lemma group_blocks_head (seg : Segment) (rest : list Segment) :
  exists b bs,
    group_blocks (seg :: rest) = b :: bs
    /\ blk_speaker b = seg_speaker seg.
Proof.
  simpl. destruct (group_blocks rest) as [|b bs]; [eauto|].
  destruct (String.eqb (seg_speaker seg) (blk_speaker b)); eauto.
Qed.

(** What follows a segment of speaker [sp]: lines that continue its
    block when the next block has the same speaker, a separated new
    block otherwise. *)
Lemma emitted_after (rest : list Segment) (sp : string) :
  emitted_from (Some sp) rest
  = match group_blocks rest with
    | [] => ""
    | b :: bs =>
        if String.eqb sp (blk_speaker b) then
          render_lines (blk_lines b)
          ++ match bs with [] => "" | _ :: _ => nl ++ render_blocks bs end
        else nl ++ render_blocks (b :: bs)
    end.
Proof.
  revert sp. induction rest as [|seg rest IH]; intros sp; [reflexivity|].
  cbn [emitted_from group_blocks]. rewrite IH. unfold emitted.
  cbn [speaker_differs]. rewrite (String.eqb_sym (seg_speaker seg) sp).
  destruct (group_blocks rest) as [|b bs].
  - cbn [blk_speaker]. destruct (String.eqb sp (seg_speaker seg));
      cbn; unfold render_block; cbn; str_norm.
  - destruct (String.eqb (seg_speaker seg) (blk_speaker b));
      cbn [blk_speaker];
      destruct (String.eqb sp (seg_speaker seg));
      cbn [negb render_blocks]; destruct bs; unfold render_block;
      cbn [render_lines blk_lines blk_speaker blk_timestamp]; str_norm.
Qed.

Lemma emitted_is_blocks (segments : list Segment) :
  emitted_from None segments = render_blocks (group_blocks segments).
Proof.
  destruct segments as [|seg rest]; [reflexivity|].
  cbn [emitted_from group_blocks]. rewrite emitted_after.
  unfold emitted. cbn [speaker_differs].
  destruct (group_blocks rest) as [|b bs].
  - cbn. unfold render_block. cbn. str_norm.
  - destruct (String.eqb (seg_speaker seg) (blk_speaker b));
      cbn [render_blocks]; destruct bs; unfold render_block;
      cbn [render_lines blk_lines blk_speaker blk_timestamp]; str_norm.
Qed.

Lemma blocks_count_after (rest : list Segment) (seg : Segment) :
  List.length (group_blocks (seg :: rest))
  = S (speaker_changes (Some (seg_speaker seg)) rest).
Proof.
  revert seg. induction rest as [|seg' rest IH]; intros seg; [reflexivity|].
  pose proof (IH seg') as Hlen.
  destruct (group_blocks_head seg' rest) as (b & bs & Hb & Hsp).
  cbn [group_blocks] in *. rewrite Hb in *. rewrite Hsp.
  cbn [speaker_changes speaker_differs].
  rewrite (String.eqb_sym (seg_speaker seg') (seg_speaker seg)).
  destruct (String.eqb (seg_speaker seg) (seg_speaker seg'));
    cbn [negb List.length] in *; lia.
Qed.

End Formatting.

(** C3. For every sequence of segments, taken as given: the output is the
    banner, then for each position what that position emits (a header
    with the formatted start time and the speaker exactly when the speaker
    differs from the segment just before, always at the first position,
    and in every case the text as one line), then a line feed; read as
    blocks, it is one block per maximal run of adjacent equal speakers,
    so there are as many headers as speaker changes.  On the three
    segments A "hi", A "there", B "hello" there are exactly two blocks:
    A with two lines, B with one.  Start times are never compared: a
    sequence whose start times go backwards is grouped by adjacency. *)
Theorem format_transcript_groups_adjacent :
  (forall segments segment_num,
     format_transcript segments segment_num
     = segment_banner segment_num ++ emitted_from None segments ++ nl)
  /\ (forall segments segment_num,
        format_transcript segments segment_num
        = segment_banner segment_num
          ++ render_blocks (group_blocks segments) ++ nl)
  /\ (forall segments,
        List.length (group_blocks segments)
        = speaker_changes None segments)
  /\ group_blocks spec_segments
     = [ mkBlock "A" "00:00:00" ["hi"; "there"];
         mkBlock "B" "00:00:05" ["hello"] ]
  /\ format_transcript spec_segments 1
     = segment_banner 1
       ++ ("[00:00:00] A:" ++ nl ++ "  hi" ++ nl ++ "  there" ++ nl)
       ++ nl
       ++ ("[00:00:05] B:" ++ nl ++ "  hello" ++ nl)
       ++ nl
  /\ group_blocks unsorted_segments
     = [ mkBlock "A" "00:00:05" ["later"; "earlier"];
         mkBlock "B" "00:00:02" ["middle"];
         mkBlock "A" "00:00:01" ["again"] ].
Proof.
  assert (Hpos : forall segments segment_num,
            format_transcript segments segment_num
            = segment_banner segment_num ++ emitted_from None segments ++ nl).
  { intros segments segment_num. unfold format_transcript.
    rewrite format_loop_output. cbn [output current_speaker]. str_norm. }
  split; [exact Hpos|]. split.
  { intros segments segment_num. rewrite Hpos, emitted_is_blocks.
    reflexivity. }
  split.
  { intros [|seg rest]; [reflexivity|].
    rewrite blocks_count_after. reflexivity. }
  repeat split; reflexivity.
Qed.

(** *** Runs of the loop *)

Section FormatRuns.

Lemma format_step_first (st : FmtState) (seg : Segment) :
  current_speaker st = None ->
  format_step st seg
  = mkFmt (output st
           ++ header_line (format_time (seg_start seg)) (seg_speaker seg)
           ++ text_line (seg_text seg))
          (Some (seg_speaker seg)).
Proof.
  intros Hc. unfold format_step. rewrite Hc. cbn [speaker_differs].
  cbn [output current_speaker]. now rewrite str_app_assoc.
Qed.

Lemma format_step_change (st : FmtState) (seg : Segment) (c : string) :
  current_speaker st = Some c ->
  seg_speaker seg <> c ->
  format_step st seg
  = mkFmt (output st ++ nl
           ++ header_line (format_time (seg_start seg)) (seg_speaker seg)
           ++ text_line (seg_text seg))
          (Some (seg_speaker seg)).
Proof.
  intros Hc Hne. unfold format_step. rewrite Hc. cbn [speaker_differs].
  apply String.eqb_neq in Hne. rewrite Hne. cbn [negb output current_speaker].
  now rewrite !str_app_assoc.
Qed.

Lemma format_step_same (st : FmtState) (seg : Segment) :
  current_speaker st = Some (seg_speaker seg) ->
  format_step st seg
  = mkFmt (output st ++ text_line (seg_text seg)) (current_speaker st).
Proof.
  intros Hc. unfold format_step. rewrite Hc. cbn [speaker_differs].
  rewrite String.eqb_refl. cbn [negb]. now rewrite Hc.
Qed.

Lemma fmt_exec_total (segments : list Segment) (st : FmtState) :
  fmt_exec st segments (fold_left format_step segments st).
Proof.
  revert st. induction segments as [|seg rest IH]; intros st.
  - apply fmt_exec_done.
  - cbn [fold_left]. specialize (IH (format_step st seg)).
    destruct (current_speaker st) as [c|] eqn:Hc.
    + destruct (String.eqb_spec (seg_speaker seg) c) as [Heq|Hne].
      * subst c. apply fmt_exec_same; [exact Hc|].
        rewrite <- format_step_same by exact Hc.
        exact IH.
      * apply (fmt_exec_change _ c); auto.
        rewrite <- (format_step_change _ _ c) by assumption. exact IH.
    + apply fmt_exec_first; [exact Hc|].
      rewrite <- format_step_first by exact Hc. exact IH.
Qed.

Lemma fmt_exec_deterministic (st : FmtState) (segments : list Segment)
    (st1 st2 : FmtState) :
  fmt_exec st segments st1 -> fmt_exec st segments st2 -> st1 = st2.
Proof.
  intros H1. revert st2.
  induction H1 as [st | st seg rest st' Hc _ IH | st c seg rest st' Hc Hne _ IH
                   | st seg rest st' Hc _ IH];
    intros st2 H2; inversion H2; subst; try congruence; auto.
Qed.

End FormatRuns.



(** ** The diarization script without a token *)

(** With a token the script does record: the contrast to C6. *)
Example token_present_opens_stream :
  In StreamOpen
     (record_and_transcribe_with_diarization world_interrupted "base" 1)
  /\ In (MakeDirs "transcriptions/session_S")
        (record_and_transcribe_with_diarization world_interrupted "base" 1).
Proof. split; vm_compute; tauto. Qed.

(** C6. When HF_TOKEN is not in the environment, the whole trace of
    [record_and_transcribe_with_diarization] is: the two progress lines,
    then the error line and the four lines of setup instructions; the
    function returns there.  No event of a recording occurs: no directory
    or master file is created, no audio device or stream is opened,
    nothing is read, saved or handed to a processing thread. *)
Theorem missing_token_aborts_before_recording (w : World)
    (model_size : string) (segment_minutes : Z) :
  hf_token w = None ->
  record_and_transcribe_with_diarization w model_size segment_minutes
  = [ Print ("🔄 Using MLX Whisper '" ++ model_size
             ++ "' (Apple Silicon optimized)...");
      Print "🔄 Loading diarization model...";
      Print (nl ++ "❌ ERROR: HuggingFace token not found!");
      Print "   1. Get token: https://huggingface.co/settings/tokens";
      Print "   2. Accept terms: https://huggingface.co/pyannote/speaker-diarization-3.1";
      Print "   3. Create a .env file in your project root with:";
      Print ("      HF_TOKEN=your_token_here" ++ nl) ]
  /\ (forall ev,
        In ev (record_and_transcribe_with_diarization w model_size
                                                      segment_minutes) ->
        is_recording_event ev = false)
  /\ captured (record_and_transcribe_with_diarization w model_size
                                                      segment_minutes) = [].
Proof.
  intros Htok.
  assert (Htrace :
    record_and_transcribe_with_diarization w model_size segment_minutes
    = [ Print ("🔄 Using MLX Whisper '" ++ model_size
               ++ "' (Apple Silicon optimized)...");
        Print "🔄 Loading diarization model...";
        Print (nl ++ "❌ ERROR: HuggingFace token not found!");
        Print "   1. Get token: https://huggingface.co/settings/tokens";
        Print "   2. Accept terms: https://huggingface.co/pyannote/speaker-diarization-3.1";
        Print "   3. Create a .env file in your project root with:";
        Print ("      HF_TOKEN=your_token_here" ++ nl) ]).
  { unfold record_and_transcribe_with_diarization. rewrite Htok.
    reflexivity. }
  split; [exact Htrace|]. rewrite Htrace. split; [|reflexivity].
  intros ev Hin. simpl in Hin.
  repeat (destruct Hin as [<-|Hin]; [reflexivity|]). destruct Hin.
Qed.

Lemma missing_token_aborts_before_recording_witness :
  hf_token world_without_token = None
  /\ forall ev,
       In ev (record_and_transcribe_with_diarization world_without_token
                                                     "base" 5) ->
       is_recording_event ev = false.
Proof.
  split; [reflexivity|].
  apply (missing_token_aborts_before_recording world_without_token "base" 5).
  reflexivity.
Defined.

(** ** The batch script *)



(** ** The capture loop *)

Section CaptureLoop.

Variables (target : ThreadTarget) (session_dir : string)
          (SEGMENT_SECONDS : Q).

Lemma prefix_app (a b : string) : String.prefix a (a ++ b) = true.
Proof.
  induction a as [|ch a IH]; simpl.
  - now destruct b.
  - destruct (Ascii.ascii_dec ch ch) as [_|Hne]; [exact IH | congruence].
Qed.

Lemma segment_start_line (n : Z) :
  is_segment_start (Print (recording_line n)) = true.
Proof.
  unfold is_segment_start, recording_line.
  rewrite <- str_app_assoc. apply prefix_app.
Qed.

(** The loop stops here: its trace from this point is empty. *)
Ltac loop_stops :=
  repeat split; try discriminate; try reflexivity;
  try (cbn; now rewrite app_nil_r);
  try (intros _); cbv; lia.

(** What holds of the trace of the loop from any of its points. *)
Lemma capture_loop_invariant (clock : list Q) :
  forall reads n pt tr ex,
    capture_loop target session_dir SEGMENT_SECONDS clock reads n pt
    = (tr, ex) ->
    (forall last, saved_then_started last tr = true)
    /\ filter is_capture_event tr = tr
    /\ (persisted tr ++ unsaved_from (pending pt) tr
        = pending pt ++ captured tr)%list
    /\ segments_processed tr = segments_saved tr
    /\ (in_flight pt + segments_started tr <= segments_saved tr + 1)%nat
    /\ (ex = ExitInterrupt ->
        (in_flight pt + segments_started tr = segments_saved tr + 1)%nat).
Proof.
  induction clock as [|now clock IH]; intros reads n pt tr ex Hrun.
  - simpl in Hrun. injection Hrun as <- <-. destruct pt; loop_stops.
  - cbn [capture_loop] in Hrun. destruct pt as [|segment_start frames].
    + (* a segment begins *)
      destruct (capture_loop _ _ _ clock reads n (InSegment now []))
        as [tr' ex'] eqn:Hrec.
      injection Hrun as <- <-.
      destruct (IH _ _ _ _ _ Hrec) as (Hs & Hf & Hc & Hp & Hn & Hi).
      unfold segments_started, segments_saved, segments_processed in *.
      cbn [filter is_capture_event]. rewrite segment_start_line.
      cbn [filter is_wav_save is_thread_start saved_then_started persisted
           unsaved_from captured pending in_flight List.length] in *.
      rewrite Hf.
      repeat split; auto; try lia; intros H; specialize (Hi H); lia.
    + destruct (Qltb (now - segment_start) SEGMENT_SECONDS).
      * destruct reads as [|[data|] reads].
        -- injection Hrun as <- <-. loop_stops.
        -- (* one more chunk *)
           destruct (capture_loop _ _ _ clock reads n
                       (InSegment segment_start (frames ++ [data])))
             as [tr' ex'] eqn:Hrec.
           injection Hrun as <- <-.
           destruct (IH _ _ _ _ _ Hrec) as (Hs & Hf & Hc & Hp & Hn & Hi).
           unfold segments_started, segments_saved, segments_processed in *.
           cbn [filter is_capture_event is_segment_start is_wav_save
                is_thread_start saved_then_started persisted unsaved_from
                captured pending in_flight List.length] in *.
           rewrite Hf, Hc, <- app_assoc. repeat split; auto.
        -- (* the interrupt arrives inside [stream.read] *)
           injection Hrun as <- <-. loop_stops.
      * destruct frames as [|fr frames].
        -- (* nothing was captured: [break] *)
           injection Hrun as <- <-. loop_stops.
        -- (* the segment is saved, then handed to a thread *)
           destruct (capture_loop _ _ _ clock reads (n + 1)%Z AtSegmentStart)
             as [tr' ex'] eqn:Hrec.
           injection Hrun as <- <-.
           destruct (IH _ _ _ _ _ Hrec) as (Hs & Hf & Hc & Hp & Hn & Hi).
           unfold segments_started, segments_saved, segments_processed in *.
           cbn [filter is_capture_event is_segment_start is_wav_save
                is_thread_start saved_then_started persisted unsaved_from
                captured pending in_flight List.length] in *.
           rewrite Hf, String.eqb_refl, Hs.
           repeat split; auto; try lia;
             try (intros H; specialize (Hi H); lia).
           rewrite <- app_assoc. cbn [app] in *. now rewrite Hc.
Qed.

(** The loop as the scripts enter it. *)
Lemma capture_loop_from_start (clock : list Q) (reads : list ReadResult) :
  let run :=
    capture_loop target session_dir SEGMENT_SECONDS clock reads 1
                 AtSegmentStart in
  saved_before_processing (fst run) = true
  /\ captured (fst run) = (persisted (fst run) ++ unsaved (fst run))%list
  /\ segments_processed (fst run) = segments_saved (fst run)
  /\ (segments_started (fst run) <= segments_saved (fst run) + 1)%nat
  /\ (snd run = ExitInterrupt ->
      segments_started (fst run) = (segments_saved (fst run) + 1)%nat).
Proof.
  intros run. destruct run as [tr ex] eqn:Hrun. subst run.
  destruct (capture_loop_invariant _ _ _ _ _ _ Hrun)
    as (Hs & _ & Hc & Hp & Hn & Hi).
  cbn [fst snd pending in_flight] in *.
  split; [apply Hs|]. split; [symmetry; exact Hc|]. split; [exact Hp|].
  split; [lia|]. intros H. specialize (Hi H). lia.
Qed.

(** Only the loop produces capture events. *)
Lemma capture_trace_of_session (w : World) (before closing : list event) :
  filter is_capture_event before = [] ->
  filter is_capture_event closing = [] ->
  capture_trace
    (before ++ capture_and_close target session_dir SEGMENT_SECONDS w
                                 closing)
  = fst (capture_loop target session_dir SEGMENT_SECONDS (clock w)
                      (reads w) 1 AtSegmentStart).
Proof.
  intros Hb Hc. unfold capture_trace, capture_and_close.
  destruct (capture_loop _ _ _ (clock w) (reads w) 1 AtSegmentStart)
    as [tr ex] eqn:Hrun.
  destruct (capture_loop_invariant _ _ _ _ _ _ Hrun) as (_ & Hf & _).
  cbn [fst]. rewrite filter_app, Hb. cbn [app].
  destruct ex; rewrite ?filter_app, ?Hf; cbn [filter is_capture_event];
    rewrite ?Hc; cbn; now rewrite ?app_nil_r.
Qed.

End CaptureLoop.

(** ** The two live scripts *)

Lemma capture_trace_continuous (w : World) (model_size : string)
    (segment_minutes : Z) :
  capture_trace (record_and_transcribe_continuous w model_size segment_minutes)
  = fst (capture_loop transcribe_segment
                      ("transcriptions/session_" ++ session_stamp w)
                      (inject_Z (segment_minutes * 60)) (clock w) (reads w) 1
                      AtSegmentStart).
Proof.
  unfold record_and_transcribe_continuous.
  rewrite !app_assoc. apply capture_trace_of_session.
  - destruct (transcriptions_exists w); reflexivity.
  - reflexivity.
Qed.

Lemma capture_trace_with_diarization (w : World) (model_size : string)
    (segment_minutes : Z) :
  py_not (hf_token w) = false ->
  capture_trace
    (record_and_transcribe_with_diarization w model_size segment_minutes)
  = fst (capture_loop transcribe_with_speakers
                      ("transcriptions/session_" ++ session_stamp w)
                      (inject_Z (segment_minutes * 60)) (clock w) (reads w) 1
                      AtSegmentStart).
Proof.
  intros Htok. unfold record_and_transcribe_with_diarization. rewrite Htok.
  rewrite !app_assoc. apply capture_trace_of_session.
  - destruct (mps_probe w), (transcriptions_exists w); reflexivity.
  - reflexivity.
Qed.




(** * Further properties *)

(** ** [get_speaker_for_time] as a first maximum *)

Section FirstMaximum.

Lemma Qltb_compat (a a' b b' : Q) :
  (a == a')%Q -> (b == b')%Q -> Qltb a b = Qltb a' b'.
Proof.
  intros Ha Hb. destruct (Qltb a' b') eqn:E.
  - apply Qltb_lt in E. apply Qltb_lt. lra.
  - apply Qltb_ge in E. apply Qltb_ge. lra.
Qed.

Lemma py_max_from_ext (f g : string -> Q) (rest : list string)
    (best : string) :
  (forall k, (f k == g k)%Q) ->
  py_max_from f best rest = py_max_from g best rest.
Proof.
  intros Hfg. revert best. induction rest as [|k rest IH]; intros best.
  - reflexivity.
  - cbn [py_max_from]. rewrite (Qltb_compat _ (g best) _ (g k)) by apply Hfg.
    destruct (Qltb (g best) (g k)); apply IH.
Qed.

(** The result is the first greatest total among the speakers taken in
    order of their first overlapping turn. *)
Lemma get_speaker_for_time_first_max (T : Diarization) (s e : Q) :
  get_speaker_for_time T s e
  = match first_seen T s e [] with
    | [] => unknown_speaker
    | k :: ks => py_max_from (fun sp => total_overlap T sp s e) k ks
    end.
Proof.
  unfold get_speaker_for_time. rewrite <- speaker_time_keys.
  destruct (speaker_time_of T s e) as [|[k0 v0] d] eqn:E; [reflexivity|].
  cbn [Dict.is_empty Dict.keys map fst py_max_key]. rewrite <- E.
  apply py_max_from_ext. intros k. apply speaker_time_get.
Qed.

(** Two inputs with the same speakers in the same order and the same
    totals get the same label. *)
Lemma same_totals_same_speaker (T T' : Diarization) (s e s' e' : Q) :
  first_seen T s e [] = first_seen T' s' e' [] ->
  (forall sp, (total_overlap T sp s e == total_overlap T' sp s' e')%Q) ->
  get_speaker_for_time T s e = get_speaker_for_time T' s' e'.
Proof.
  intros Hkeys Htot. rewrite !get_speaker_for_time_first_max, Hkeys.
  destruct (first_seen T' s' e' []) as [|k ks]; [reflexivity|].
  apply py_max_from_ext. exact Htot.
Qed.

Lemma first_seen_ext (T T' : Diarization) (s e s' e' : Q) :
  map snd T = map snd T' ->
  Forall2 (fun it it' => (overlap (fst it) s e == overlap (fst it') s' e')%Q)
          T T' ->
  forall seen, first_seen T s e seen = first_seen T' s' e' seen.
Proof.
  intros Hsp Hov. induction Hov as [|[t sp] [t' sp'] T T' Ho _ IH];
    intros seen; [reflexivity|].
  cbn [map snd fst] in *. injection Hsp as -> Hsp.
  cbn [first_seen]. rewrite (Qltb_compat 0 0 _ (overlap t' s' e'))
    by (exact Ho || reflexivity).
  destruct (Qltb 0 (overlap t' s' e')); [|apply IH; exact Hsp].
  destruct (existsb _ seen); apply IH; exact Hsp.
Qed.

Lemma total_overlap_ext (T T' : Diarization) (s e s' e' : Q) :
  map snd T = map snd T' ->
  Forall2 (fun it it' => (overlap (fst it) s e == overlap (fst it') s' e')%Q)
          T T' ->
  forall sp, (total_overlap T sp s e == total_overlap T' sp s' e')%Q.
Proof.
  intros Hsp Hov sp. induction Hov as [|[t k] [t' k'] T T' Ho _ IH];
    [reflexivity|].
  cbn [map snd fst] in *. injection Hsp as -> Hsp.
  cbn [total_overlap]. specialize (IH Hsp).
  destruct (String.eqb k' sp); lra.
Qed.

Lemma total_overlap_app (T1 T2 : Diarization) (sp : string) (s e : Q) :
  (total_overlap (T1 ++ T2)%list sp s e
   == total_overlap T1 sp s e + total_overlap T2 sp s e)%Q.
Proof.
  induction T1 as [|[t k] T1 IH]; cbn [app total_overlap]; lra.
Qed.

Lemma first_seen_app (T1 T2 : Diarization) (s e : Q) (seen : list string) :
  first_seen (T1 ++ T2)%list s e seen = first_seen T2 s e (first_seen T1 s e seen).
Proof.
  revert seen. induction T1 as [|[t k] T1 IH]; intros seen; [reflexivity|].
  cbn [app first_seen]. destruct (Qltb 0 (overlap t s e)); [|apply IH].
  destruct (existsb _ seen); apply IH.
Qed.

Lemma other_speaker (sp : string) : exists k : string, k <> sp.
Proof.
  exists (String "x" sp). intros H.
  apply (f_equal String.length) in H. simpl in H. lia.
Qed.

End FirstMaximum.

(** ** Edge cases of the window and of the turns *)

Section WindowsAndTurns.

Lemma overlap_empty_window (turn : Turn) (s e : Q) :
  (e <= s)%Q -> (overlap turn s e == 0)%Q.
Proof.
  intros H. unfold overlap. apply Q.max_l.
  pose proof (Q.le_min_r (turn_end turn) e).
  pose proof (Q.le_max_r (turn_start turn) s). lra.
Qed.

Lemma overlap_empty_turn (turn : Turn) (s e : Q) :
  (turn_end turn <= turn_start turn)%Q -> (overlap turn s e == 0)%Q.
Proof.
  intros H. unfold overlap. apply Q.max_l.
  pose proof (Q.le_min_l (turn_end turn) e).
  pose proof (Q.le_max_l (turn_start turn) s). lra.
Qed.

Lemma zero_overlap_step (turn : Turn) (sp : string) (s e : Q) (d : Dict.t) :
  (overlap turn s e == 0)%Q -> speaker_time_step s e d (turn, sp) = d.
Proof.
  intros Hz. unfold speaker_time_step. rewrite positive_overlap_test.
  replace (Qltb 0 (overlap turn s e)) with false; [reflexivity|].
  symmetry. apply Qltb_ge. lra.
Qed.

Lemma overlap_shift (a b s e delta : Q) :
  (overlap (mkTurn (a + delta) (b + delta)) (s + delta) (e + delta)
   == overlap (mkTurn a b) s e)%Q.
Proof.
  unfold overlap. cbn [turn_start turn_end].
  destruct (Q.min_spec (b + delta) (e + delta)) as [[L1 H1]|[L1 H1]];
    destruct (Q.max_spec (a + delta) (s + delta)) as [[L2 H2]|[L2 H2]];
    destruct (Q.min_spec b e) as [[L3 H3]|[L3 H3]];
    destruct (Q.max_spec a s) as [[L4 H4]|[L4 H4]];
    try lra;
    destruct (Q.max_spec 0 (Qmin (b + delta) (e + delta)
                            - Qmax (a + delta) (s + delta)))
      as [[L5 H5]|[L5 H5]];
    destruct (Q.max_spec 0 (Qmin b e - Qmax a s)) as [[L6 H6]|[L6 H6]];
    lra.
Qed.

Lemma overlap_split (a b c s e : Q) :
  (a <= b)%Q -> (b <= c)%Q ->
  (overlap (mkTurn a c) s e
   == overlap (mkTurn a b) s e + overlap (mkTurn b c) s e)%Q.
Proof.
  intros Hab Hbc. unfold overlap. cbn [turn_start turn_end].
  destruct (Q.min_spec c e) as [[L1 H1]|[L1 H1]];
    destruct (Q.min_spec b e) as [[L2 H2]|[L2 H2]]; try lra;
    destruct (Q.max_spec a s) as [[L3 H3]|[L3 H3]];
    destruct (Q.max_spec b s) as [[L4 H4]|[L4 H4]]; try lra;
    destruct (Q.max_spec 0 (Qmin c e - Qmax a s)) as [[L5 H5]|[L5 H5]];
    destruct (Q.max_spec 0 (Qmin b e - Qmax a s)) as [[L6 H6]|[L6 H6]];
    destruct (Q.max_spec 0 (Qmin c e - Qmax b s)) as [[L7 H7]|[L7 H7]];
    lra.
Qed.

Lemma total_overlap_perm (T T' : Diarization) (sp : string) (s e : Q) :
  Permutation T T' ->
  (total_overlap T sp s e == total_overlap T' sp s e)%Q.
Proof.
  induction 1 as [|[t k] T T' _ IH|[t k] [t' k'] T|T T' T'' _ IH1 _ IH2];
    cbn [total_overlap]; lra.
Qed.

Lemma existsb_eqb_app (k : string) (l : list string) :
  existsb (String.eqb k) (l ++ [k]) = true.
Proof.
  rewrite existsb_app. cbn [existsb]. rewrite String.eqb_refl.
  now rewrite orb_true_r.
Qed.

End WindowsAndTurns.

(** X1. A window that is empty or reversed ([end <= start], as for a
    transcribed segment of zero length) meets no turn: the dict stays
    empty and the label is "Unknown Speaker", whatever the diarization. *)
Theorem empty_window_is_unknown (T : Diarization) (s e : Q) :
  (e <= s)%Q ->
  speaker_time_of T s e = []
  /\ get_speaker_for_time T s e = "Unknown Speaker".
Proof.
  intros Hes.
  destruct (result_is_key_or_unknown T s e) as [H|Hin]; [exact H|].
  apply key_iff_positive_total in Hin.
  pose proof (total_zero_of_no_overlap T s e (get_speaker_for_time T s e)
                (fun t _ => overlap_empty_window t s e Hes)). lra.
Qed.

Lemma empty_window_is_unknown_witness :
  (5 <= 5)%Q /\ get_speaker_for_time spec_turns 5 5 = "Unknown Speaker".
Proof.
  assert (H : (5 <= 5)%Q) by apply Qle_refl.
  split; [exact H|]. apply (empty_window_is_unknown spec_turns 5 5 H).
Defined.

(** X2. A turn that is empty or reversed ([turn.end <= turn.start]) is
    skipped by the loop: the dict and the label are the ones obtained
    without it. *)
Theorem degenerate_turn_is_ignored (T1 T2 : Diarization) (turn : Turn)
    (sp : string) (s e : Q) :
  (turn_end turn <= turn_start turn)%Q ->
  speaker_time_of (T1 ++ (turn, sp) :: T2)%list s e
  = speaker_time_of (T1 ++ T2)%list s e
  /\ get_speaker_for_time (T1 ++ (turn, sp) :: T2)%list s e
     = get_speaker_for_time (T1 ++ T2)%list s e.
Proof.
  intros Hturn.
  assert (Hdict : speaker_time_of (T1 ++ (turn, sp) :: T2)%list s e
                  = speaker_time_of (T1 ++ T2)%list s e).
  { unfold speaker_time_of. rewrite !fold_left_app. cbn [fold_left].
    rewrite zero_overlap_step; [reflexivity|].
    now apply overlap_empty_turn. }
  split; [exact Hdict|]. unfold get_speaker_for_time. now rewrite Hdict.
Qed.

Lemma degenerate_turn_is_ignored_witness :
  get_speaker_for_time ((mkTurn 12 9, "C") :: spec_turns) 8 15
  = get_speaker_for_time spec_turns 8 15.
Proof.
  apply (degenerate_turn_is_ignored [] spec_turns (mkTurn 12 9) "C" 8 15).
  unfold Qle. simpl. lia.
Defined.

Lemma strict_winner (T : Diarization) (s e : Q) (sp : string) :
  (forall k, k <> sp ->
             (total_overlap T k s e < total_overlap T sp s e)%Q) ->
  get_speaker_for_time T s e = sp.
Proof.
  intros Hwin.
  assert (Hpos : (0 < total_overlap T sp s e)%Q).
  { destruct (other_speaker sp) as [k Hk]. specialize (Hwin k Hk).
    pose proof (total_overlap_nonneg s e T k). lra. }
  apply key_iff_positive_total in Hpos.
  destruct (result_cases T s e) as [[Hnil _]|(p & q & Heq & Hlt & Hle)].
  - rewrite Hnil in Hpos. destruct Hpos.
  - destruct (String.eqb_spec (get_speaker_for_time T s e) sp) as [|Hne];
      [assumption|].
    specialize (Hwin _ Hne). rewrite speaker_time_keys, Heq in Hpos.
    apply in_app_or in Hpos. destruct Hpos as [Hin|[Heq'|Hin]].
    + apply Hlt in Hin. lra.
    + congruence.
    + apply Hle in Hin. lra.
Qed.






(** ** The merge step and the page it yields *)

Section MergeStep.

Variable strip : string -> string.

Lemma append_loop_is_map (A B : Type) (f : A -> B) (l : list A)
    (acc : list B) :
  fold_left (fun acc x => (acc ++ [f x])%list) l acc = (acc ++ map f l)%list.
Proof.
  revert acc. induction l as [|x l IH]; intros acc; cbn [fold_left map].
  - now rewrite app_nil_r.
  - rewrite IH, <- app_assoc. reflexivity.
Qed.

Lemma transcript_with_speakers_map (D : Diarization)
    (segments : list WhisperSegment) :
  transcript_with_speakers strip D segments
  = map (labelled_segment strip D) segments.
Proof. unfold transcript_with_speakers. now rewrite append_loop_is_map. Qed.

(** A returned label is the sentinel or belongs to a turn that meets the
    window. *)
Lemma label_has_overlapping_turn (D : Diarization) (s e : Q) :
  get_speaker_for_time D s e = unknown_speaker
  \/ exists turn,
       In (turn, get_speaker_for_time D s e) D
       /\ (0 < overlap turn s e)%Q.
Proof.
  destruct (result_is_key_or_unknown D s e) as [[_ H]|Hin]; [left; exact H|].
  right. apply key_iff_positive_total in Hin.
  now apply total_overlap_positive in Hin.
Qed.

End MergeStep.

Section OneSpeaker.

Lemma emitted_same_speaker (sp : string) (rest : list Segment) :
  (forall seg, In seg rest -> seg_speaker seg = sp) ->
  emitted_from (Some sp) rest = render_lines (map seg_text rest).
Proof.
  induction rest as [|seg rest IH]; intros Hall; [reflexivity|].
  cbn [emitted_from map render_lines]. unfold emitted.
  rewrite (Hall seg (or_introl eq_refl)). cbn [speaker_differs].
  rewrite String.eqb_refl. cbn [negb].
  rewrite IH; [reflexivity|]. intros x Hx. apply Hall. now right.
Qed.

Lemma one_speaker_page (sp : string) (seg0 : Segment) (rest : list Segment)
    (segment_num : Z) :
  (forall seg, In seg (seg0 :: rest) -> seg_speaker seg = sp) ->
  format_transcript (seg0 :: rest) segment_num
  = segment_banner segment_num
    ++ header_line (format_time (seg_start seg0)) sp
    ++ render_lines (map seg_text (seg0 :: rest)) ++ nl.
Proof.
  intros Hall. unfold format_transcript. rewrite format_loop_output.
  cbn [output current_speaker emitted_from map render_lines].
  unfold emitted. cbn [speaker_differs].
  rewrite (Hall seg0 (or_introl eq_refl)).
  rewrite emitted_same_speaker by (intros x Hx; apply Hall; now right).
  str_norm.
Qed.

Lemma emitted_from_app (l1 l2 : list Segment) (prev : option string) :
  emitted_from prev (l1 ++ l2)
  = emitted_from prev l1 ++ emitted_from (speaker_after prev l1) l2.
Proof.
  revert prev. induction l1 as [|seg l1 IH]; intros prev; [reflexivity|].
  cbn [app emitted_from]. unfold speaker_after. cbn [fold_left].
  fold (speaker_after (Some (seg_speaker seg)) l1). rewrite IH. str_norm.
Qed.

Lemma group_blocks_lines (segments : list Segment) :
  List.concat (map blk_lines (group_blocks segments)) = map seg_text segments.
Proof.
  induction segments as [|seg rest IH]; [reflexivity|].
  cbn [group_blocks map]. rewrite <- IH.
  destruct (group_blocks rest) as [|b bs]; [reflexivity|].
  destruct (String.eqb (seg_speaker seg) (blk_speaker b)); reflexivity.
Qed.

Lemma group_blocks_nonempty (segments : list Segment) (b : LabeledBlock) :
  In b (group_blocks segments) -> blk_lines b <> [].
Proof.
  revert b. induction segments as [|seg rest IH]; intros b Hb; [destruct Hb|].
  cbn [group_blocks] in Hb. destruct (group_blocks rest) as [|b' bs].
  - destruct Hb as [<-|[]]. discriminate.
  - destruct (String.eqb (seg_speaker seg) (blk_speaker b')).
    + destruct Hb as [<-|Hb]; [discriminate|]. apply IH. now right.
    + destruct Hb as [<-|Hb]; [discriminate|]. now apply IH.
Qed.

Lemma group_blocks_adjacent (segments : list Segment) :
  adjacent_distinct (map blk_speaker (group_blocks segments)).
Proof.
  induction segments as [|seg rest IH]; [exact I|].
  cbn [group_blocks]. destruct (group_blocks rest) as [|b bs]; [exact I|].
  destruct (String.eqb_spec (seg_speaker seg) (blk_speaker b)) as [Heq|Hne].
  - cbn [map blk_speaker adjacent_distinct] in *. rewrite Heq.
    destruct bs; exact IH.
  - cbn [map blk_speaker]. split; [exact Hne | exact IH].
Qed.

End OneSpeaker.

(** X6. The merge step keeps the transcription as it is and only adds the
    label: one entry per transcribed segment, in the same order, with the
    same start and end, the text stripped; every label is "Unknown
    Speaker" or the speaker of a turn of the diarization that overlaps
    that segment. *)
Theorem merged_segments_follow_transcription (strip : string -> string)
    (D : Diarization) (segments : list WhisperSegment) :
  let merged := transcript_with_speakers strip D segments in
  map seg_start merged = map ws_start segments
  /\ map seg_end merged = map ws_end segments
  /\ map seg_text merged = map (fun x => strip (ws_text x)) segments
  /\ map seg_speaker merged
     = map (fun x => get_speaker_for_time D (ws_start x) (ws_end x)) segments
  /\ forall seg,
       In seg merged ->
       seg_speaker seg = "Unknown Speaker"
       \/ exists turn,
            In (turn, seg_speaker seg) D
            /\ (0 < overlap turn (seg_start seg) (seg_end seg))%Q.
Proof.
  cbv zeta. rewrite transcript_with_speakers_map, !map_map.
  repeat split; try reflexivity.
  intros seg Hin. apply in_map_iff in Hin. destruct Hin as (x & <- & _).
  cbn [labelled_segment seg_speaker seg_start seg_end].
  apply label_has_overlapping_turn.
Qed.

Lemma merged_segments_follow_transcription_witness :
  map seg_speaker
      (transcript_with_speakers (fun x => x) spec_turns
         [mkWhisper 8 15 "bonjour"; mkWhisper 30 31 "salut"])
  = ["B"; "Unknown Speaker"]
  /\ exists turn,
       In (turn, "B") spec_turns /\ (0 < overlap turn 8 15)%Q.
Proof.
  destruct (merged_segments_follow_transcription (fun x => x) spec_turns
              [mkWhisper 8 15 "bonjour"; mkWhisper 30 31 "salut"])
    as (_ & _ & _ & Hsp & Hlabel).
  split; [rewrite Hsp; reflexivity|].
  destruct (Hlabel (mkSegment "B" 8 15 "bonjour")) as [H|H].
  - left. reflexivity.
  - discriminate H.
  - exact H.
Defined.

(** X7. When no turn of the diarization overlaps any transcribed segment
    (in particular when the diarization is empty), the text written for
    the segments is a single block: the header carries "Unknown Speaker"
    and the start time of the first segment, and every stripped text
    follows as one line. *)
Theorem undiarized_text_is_one_block (strip : string -> string)
    (D : Diarization) (first : WhisperSegment)
    (rest : list WhisperSegment) (segment_num : Z) :
  (forall x turn sp,
     In x (first :: rest) -> In (turn, sp) D ->
     (overlap turn (ws_start x) (ws_end x) == 0)%Q) ->
  formatted_text strip D (first :: rest) segment_num
  = segment_banner segment_num
    ++ header_line (format_time (ws_start first)) "Unknown Speaker"
    ++ render_lines (map (fun x => strip (ws_text x)) (first :: rest))
    ++ nl.
Proof.
  intros Hno. unfold formatted_text. rewrite transcript_with_speakers_map.
  cbn [map]. rewrite (one_speaker_page unknown_speaker).
  - cbn [seg_start labelled_segment map seg_text]. rewrite map_map.
    reflexivity.
  - intros seg Hin.
    change (In seg (map (labelled_segment strip D) (first :: rest))) in Hin.
    apply in_map_iff in Hin. destruct Hin as (x & <- & Hx).
    cbn [labelled_segment seg_speaker].
    destruct (label_has_overlapping_turn D (ws_start x) (ws_end x))
      as [H|(turn & Hin & Hpos)]; [exact H|].
    pose proof (Hno x turn _ Hx Hin). lra.
Qed.

Lemma undiarized_text_is_one_block_witness :
  formatted_text (fun x => x) []
    [mkWhisper 3 4 "bonjour"; mkWhisper 4 6 "tout le monde"] 2
  = segment_banner 2
    ++ ("[00:00:03] Unknown Speaker:" ++ nl
        ++ "  bonjour" ++ nl ++ "  tout le monde" ++ nl)
    ++ nl.
Proof.
  rewrite (undiarized_text_is_one_block (fun x => x) []
             (mkWhisper 3 4 "bonjour") [mkWhisper 4 6 "tout le monde"] 2).
  - reflexivity.
  - intros x turn sp _ [].
Defined.

(** X8. Segments that all carry the same speaker are printed under one
    header, stamped with the start time of the first segment, however many
    they are. *)
Theorem one_speaker_gives_one_header (sp : string) (first : Segment)
    (rest : list Segment) (segment_num : Z) :
  (forall seg, In seg (first :: rest) -> seg_speaker seg = sp) ->
  format_transcript (first :: rest) segment_num
  = segment_banner segment_num
    ++ header_line (format_time (seg_start first)) sp
    ++ render_lines (map seg_text (first :: rest)) ++ nl
  /\ List.length (group_blocks (first :: rest)) = 1%nat.
Proof.
  intros Hall. split; [now apply one_speaker_page|].
  rewrite blocks_count_after.
  assert (Hrest : forall seg, In seg rest -> seg_speaker seg = sp)
    by (intros x Hx; apply Hall; now right).
  rewrite (Hall first (or_introl eq_refl)). clear Hall.
  induction rest as [|seg rest IH]; [reflexivity|].
  cbn [speaker_changes speaker_differs].
  rewrite (Hrest seg (or_introl eq_refl)), String.eqb_refl. cbn [negb].
  apply IH. intros x Hx. apply Hrest. now right.
Qed.

Lemma one_speaker_gives_one_header_witness :
  List.length
    (group_blocks [mkSegment "A" 0 2 "hi"; mkSegment "A" 2 5 "there"])
  = 1%nat.
Proof.
  apply (one_speaker_gives_one_header "A" (mkSegment "A" 0 2 "hi")
           [mkSegment "A" 2 5 "there"] 1).
  intros seg [<-|[<-|[]]]; reflexivity.
Defined.

(** X9. Nothing is lost or moved on the page: the blocks printed hold the
    texts of the segments, each exactly once and in the given order; no
    block is empty; and two blocks that follow each other never carry the
    same speaker. *)
Theorem page_keeps_every_text (segments : list Segment) (segment_num : Z) :
  format_transcript segments segment_num
  = segment_banner segment_num
    ++ render_blocks (group_blocks segments) ++ nl
  /\ List.concat (map blk_lines (group_blocks segments))
     = map seg_text segments
  /\ (forall b, In b (group_blocks segments) -> blk_lines b <> [])
  /\ adjacent_distinct (map blk_speaker (group_blocks segments)).
Proof.
  split.
  { unfold format_transcript. rewrite format_loop_output.
    cbn [output current_speaker]. rewrite emitted_is_blocks. str_norm. }
  split; [apply group_blocks_lines|].
  split; [apply group_blocks_nonempty | apply group_blocks_adjacent].
Qed.

Lemma page_keeps_every_text_witness :
  List.concat (map blk_lines (group_blocks unsorted_segments))
  = ["later"; "earlier"; "middle"; "again"]
  /\ blk_lines (mkBlock "B" "00:00:02" ["middle"]) <> [].
Proof.
  destruct (page_keeps_every_text unsorted_segments 1)
    as (_ & Hlines & Hne & _).
  split; [rewrite Hlines; reflexivity|].
  apply Hne. right. left. reflexivity.
Defined.

(** X10. Formatting is stable under later segments: the page for a list
    of segments, short of its closing line feed, is the beginning of the
    page for any longer list, and what the further segments add depends
    only on them and on the speaker of the last segment before them. *)
Theorem page_grows_at_the_end (l1 l2 : list Segment) (segment_num : Z) :
  format_transcript l1 segment_num
  = (segment_banner segment_num ++ emitted_from None l1) ++ nl
  /\ format_transcript (l1 ++ l2) segment_num
     = (segment_banner segment_num ++ emitted_from None l1)
       ++ emitted_from (speaker_after None l1) l2 ++ nl.
Proof.
  unfold format_transcript. rewrite !format_loop_output.
  cbn [output current_speaker]. rewrite emitted_from_app. split; str_norm.
Qed.

(** ** Reading printed numbers back *)

Section PrintedNumbers.

Lemma str_length_app (a b : string) :
  String.length (a ++ b) = (String.length a + String.length b)%nat.
Proof. induction a as [|ch a IH]; simpl; [reflexivity | now rewrite IH]. Qed.

Lemma str_app_inv_head (a b c : string) : a ++ b = a ++ c -> b = c.
Proof.
  induction a as [|ch a IH]; simpl; intros H; [exact H|].
  injection H as H. now apply IH.
Qed.

(** Two strings that start with pieces of the same length and are equal
    have equal pieces. *)
Lemma str_app_inj_length (a1 a2 b1 b2 : string) :
  String.length a1 = String.length a2 ->
  a1 ++ b1 = a2 ++ b2 -> a1 = a2 /\ b1 = b2.
Proof.
  revert a2. induction a1 as [|ch a1 IH]; intros [|ch2 a2] Hlen H;
    simpl in *; try discriminate.
  - split; [reflexivity | exact H].
  - injection H as -> H. injection Hlen as Hlen.
    destruct (IH a2 Hlen H) as [-> ->]. split; reflexivity.
Qed.

Lemma str_app_inv_tail (a b c : string) : a ++ c = b ++ c -> a = b.
Proof.
  intros H. apply (str_app_inj_length a b c c); [|exact H].
  apply (f_equal String.length) in H. rewrite !str_length_app in H. lia.
Qed.

Lemma to_uint_nonnil (n : N) : N.to_uint n <> Decimal.Nil.
Proof.
  destruct n as [|p]; [discriminate|].
  apply DecimalPos.Unsigned.to_uint_nonnil.
Qed.

Lemma parse_zeros (k : nat) (d : Decimal.uint) :
  NilEmpty.uint_of_string (str_repeat "0" k ++ NilEmpty.string_of_uint d)
  = Some (Nat.iter k Decimal.D0 d).
Proof.
  induction k as [|k IH]; cbn [str_repeat Nat.iter nat_rect].
  - apply NilEmpty.usu.
  - cbn [append NilEmpty.uint_of_string]. rewrite IH. reflexivity.
Qed.

Lemma of_uint_zeros (k : nat) (d : Decimal.uint) :
  N.of_uint (Nat.iter k Decimal.D0 d) = N.of_uint d.
Proof. induction k as [|k IH]; [reflexivity | exact IH]. Qed.

(** Digits printed with any number of leading zeros read back as the
    number. *)
Lemma parse_padded (k : nat) (n : N) :
  parse_decimal (str_repeat "0" k ++ NilZero.string_of_uint (N.to_uint n))
  = Some n.
Proof.
  unfold parse_decimal. pose proof (to_uint_nonnil n) as Hnil.
  assert (Hs : NilZero.string_of_uint (N.to_uint n)
               = NilEmpty.string_of_uint (N.to_uint n)).
  { destruct (N.to_uint n); [contradiction | reflexivity..]. }
  rewrite Hs.
  assert (Hz : NilZero.uint_of_string
                 (str_repeat "0" k ++ NilEmpty.string_of_uint (N.to_uint n))
               = NilEmpty.uint_of_string
                   (str_repeat "0" k
                    ++ NilEmpty.string_of_uint (N.to_uint n))).
  { unfold NilZero.uint_of_string.
    destruct (str_repeat "0" k ++ NilEmpty.string_of_uint (N.to_uint n))
      eqn:E; [|reflexivity].
    exfalso. destruct k; cbn [str_repeat append] in E; [|discriminate].
    destruct (N.to_uint n); [contradiction | discriminate..]. }
  rewrite Hz, parse_zeros. cbn [option_map]. rewrite of_uint_zeros.
  now rewrite DecimalN.Unsigned.of_to.
Qed.

Lemma format_0d_nonneg (width : nat) (z : Z) :
  (0 <= z)%Z ->
  format_0d width z
  = str_repeat "0" (width - String.length (str_abs z)) ++ str_abs z.
Proof.
  intros Hz. unfold format_0d.
  replace (z <? 0)%Z with false by (symmetry; apply Z.ltb_ge; lia).
  cbn [String.length append]. now rewrite Nat.sub_0_r.
Qed.

(** [{z:0Wd}] of a number that is not negative reads back as the number. *)
Lemma parse_format_0d (width : nat) (z : Z) :
  (0 <= z)%Z -> parse_decimal (format_0d width z) = Some (Z.to_N z).
Proof.
  intros Hz. rewrite format_0d_nonneg by exact Hz. unfold str_abs.
  rewrite parse_padded. f_equal. destruct z; try reflexivity. lia.
Qed.

Lemma format_0d_inj (width : nat) (z1 z2 : Z) :
  (0 <= z1)%Z -> (0 <= z2)%Z ->
  format_0d width z1 = format_0d width z2 -> z1 = z2.
Proof.
  intros H1 H2 Heq. apply (f_equal parse_decimal) in Heq.
  rewrite !parse_format_0d in Heq by assumption.
  injection Heq as Heq. apply (f_equal Z.of_N) in Heq.
  rewrite !Z2N.id in Heq by assumption. exact Heq.
Qed.

(** Below one hundred, [{z:02d}] has exactly two characters. *)
Lemma format_02d_length (z : Z) :
  (0 <= z < 100)%Z -> String.length (format_0d 2 z) = 2%nat.
Proof.
  intros Hz.
  assert (Hall : forallb
            (fun n => Nat.eqb (String.length (format_0d 2 (Z.of_nat n))) 2)
            (seq 0 100) = true) by (vm_compute; reflexivity).
  rewrite forallb_forall in Hall.
  specialize (Hall (Z.to_nat z)). rewrite Z2Nat.id in Hall by lia.
  apply Nat.eqb_eq, Hall. apply in_seq. lia.
Qed.

End PrintedNumbers.

(** ** More on [format_time] *)

Section TimeStamps.

(** For every number, negative ones included, the three fields are the
    floor-division split of the whole seconds. *)
Lemma format_time_whole (seconds : Q) :
  format_time seconds
  = format_0d 2 (Qfloor seconds / 3600)
    ++ ":" ++ format_0d 2 ((Qfloor seconds mod 3600) / 60)
    ++ ":" ++ format_0d 2 (Qfloor seconds mod 60).
Proof.
  destruct (floor_split seconds) as (Hh & Hm & Hs0 & Hs).
  unfold format_time, py_floordiv. rewrite !py_int_inject_Z.
  rewrite (py_int_nonneg _ Hs0), Hh, Hm, Hs. reflexivity.
Qed.

Lemma hms_bounds (t : Z) :
  (0 <= (t mod 3600) / 60 < 60)%Z /\ (0 <= t mod 60 < 60)%Z
  /\ ((t / 3600) * 3600 + ((t mod 3600) / 60) * 60 + t mod 60 = t)%Z.
Proof.
  pose proof (Z.mod_pos_bound t 3600 ltac:(lia)) as Hb1.
  pose proof (Z.mod_pos_bound t 60 ltac:(lia)) as Hb2.
  pose proof (Z.div_mod t 3600 ltac:(lia)) as Hd1.
  pose proof (Z.div_mod (t mod 3600) 60 ltac:(lia)) as Hd2.
  pose proof (Z.mod_pos_bound (t mod 3600) 60 ltac:(lia)) as Hb3.
  assert (Hmm : ((t mod 3600) mod 60 = t mod 60)%Z).
  { symmetry. rewrite Hd1 at 1.
    replace (3600 * (t / 3600) + t mod 3600)%Z
      with (t mod 3600 + (60 * (t / 3600)) * 60)%Z by lia.
    apply Z.mod_add. lia. }
  repeat split; try lia.
Qed.

End TimeStamps.



(** X12. Below one hundred hours the stamp has a fixed shape: exactly
    eight characters, with the two colons in the third and sixth place. *)
Theorem format_time_has_eight_characters (seconds : Q) :
  (0 <= seconds)%Q -> (seconds < 360000)%Q ->
  String.length (format_time seconds) = 8%nat
  /\ String.get 2 (format_time seconds) = Some ":"%char
  /\ String.get 5 (format_time seconds) = Some ":"%char.
Proof.
  intros Hlo Hhi.
  destruct (hms_bounds (Qfloor seconds)) as (Hm & Hs & Hsum).
  assert (Ht0 : (0 <= Qfloor seconds)%Z).
  { change 0%Z with (Qfloor 0). now apply Qfloor_resp_le. }
  assert (Ht1 : (Qfloor seconds < 360000)%Z).
  { pose proof (Qfloor_le seconds) as Hle.
    assert (Hq : (inject_Z (Qfloor seconds) < inject_Z 360000)%Q)
      by (change (inject_Z 360000) with 360000%Q; lra).
    now rewrite <- Zlt_Qlt in Hq. }
  assert (Hh : (0 <= Qfloor seconds / 3600 < 100)%Z).
  { split; [apply Z.div_pos; lia|]. apply Z.div_lt_upper_bound; lia. }
  pose proof (format_02d_length _ Hh) as L1.
  assert (L2 : String.length
                 (format_0d 2 ((Qfloor seconds mod 3600) / 60)) = 2%nat)
    by (apply format_02d_length; lia).
  assert (L3 : String.length (format_0d 2 (Qfloor seconds mod 60)) = 2%nat)
    by (apply format_02d_length; lia).
  rewrite format_time_whole.
  destruct (format_0d 2 (Qfloor seconds / 3600)) as [|a1 [|a2 [|? ?]]];
    try discriminate.
  destruct (format_0d 2 ((Qfloor seconds mod 3600) / 60))
    as [|b1 [|b2 [|? ?]]]; try discriminate.
  destruct (format_0d 2 (Qfloor seconds mod 60)) as [|c1 [|c2 [|? ?]]];
    try discriminate.
  repeat split; reflexivity.
Qed.

Lemma format_time_has_eight_characters_witness :
  String.length (format_time (7325 # 2)) = 8%nat
  /\ String.get 2 (format_time (7325 # 2)) = Some ":"%char
  /\ String.get 5 (format_time (7325 # 2)) = Some ":"%char.
Proof.
  apply (format_time_has_eight_characters (7325 # 2));
    unfold Qle, Qlt; simpl; lia.
Defined.



(** ** Segment files of the live scripts *)

Section SegmentFiles.

Variables (target : ThreadTarget) (session_dir : string)
          (SEGMENT_SECONDS : Q).

(** Files and thread arguments carry the running segment number, and no
    file is written without frames. *)
Lemma capture_loop_numbering (clock : list Q) :
  forall reads n pt tr ex,
    capture_loop target session_dir SEGMENT_SECONDS clock reads n pt
    = (tr, ex) ->
    saved_paths tr
    = map (segment_wav session_dir) (numbers_from n (segments_saved tr))
    /\ processed_segments tr
       = map (fun k => (segment_wav session_dir k, k))
             (numbers_from n (segments_saved tr))
    /\ (forall path frames, In (WavSave path frames) tr -> frames <> []).
Proof.
  induction clock as [|now clock IH]; intros reads n pt tr ex Hrun.
  - simpl in Hrun. injection Hrun as <- <-.
    repeat split; try reflexivity. intros path frames [].
  - cbn [capture_loop] in Hrun. destruct pt as [|segment_start frames].
    + destruct (capture_loop _ _ _ clock reads n (InSegment now []))
        as [tr' ex'] eqn:Hrec.
      injection Hrun as <- <-.
      destruct (IH _ _ _ _ _ Hrec) as (Hp & Ht & Hne).
      unfold segments_saved in *.
      cbn [saved_paths processed_segments filter is_wav_save].
      repeat split; auto.
      intros path frames [H|H]; [discriminate | eauto].
    + destruct (Qltb (now - segment_start) SEGMENT_SECONDS).
      * destruct reads as [|[data|] reads].
        -- injection Hrun as <- <-.
           repeat split; try reflexivity. intros path fr [].
        -- destruct (capture_loop _ _ _ clock reads n
                       (InSegment segment_start (frames ++ [data])))
             as [tr' ex'] eqn:Hrec.
           injection Hrun as <- <-.
           destruct (IH _ _ _ _ _ Hrec) as (Hp & Ht & Hne).
           unfold segments_saved in *.
           cbn [saved_paths processed_segments filter is_wav_save].
           repeat split; auto.
           intros path fr [H|H]; [discriminate | eauto].
        -- injection Hrun as <- <-.
           repeat split; try reflexivity. intros path fr [].
      * destruct frames as [|fr0 frames].
        -- injection Hrun as <- <-.
           repeat split; try reflexivity. intros path fr [].
        -- destruct (capture_loop _ _ _ clock reads (n + 1)%Z AtSegmentStart)
             as [tr' ex'] eqn:Hrec.
           injection Hrun as <- <-.
           destruct (IH _ _ _ _ _ Hrec) as (Hp & Ht & Hne).
           unfold segments_saved in *.
           cbn [saved_paths processed_segments filter is_wav_save
                List.length numbers_from map].
           rewrite Hp, Ht. repeat split; auto.
           intros path fr [H|[H|H]]; [|discriminate | eauto].
           injection H as _ <-. discriminate.
Qed.

End SegmentFiles.

Section FileNames.

Lemma segment_wav_inj (session_dir : string) (n1 n2 : Z) :
  (0 <= n1)%Z -> (0 <= n2)%Z ->
  segment_wav session_dir n1 = segment_wav session_dir n2 -> n1 = n2.
Proof.
  intros H1 H2 Heq. unfold segment_wav in Heq.
  apply str_app_inv_head in Heq. apply str_app_inv_head in Heq.
  apply str_app_inv_tail in Heq. now apply format_0d_inj in Heq.
Qed.

Lemma numbers_from_ge (n : Z) (count : nat) (k : Z) :
  In k (numbers_from n count) -> (n <= k)%Z.
Proof.
  revert n. induction count as [|count IH]; intros n Hin; [destruct Hin|].
  destruct Hin as [<-|Hin]; [lia|]. apply IH in Hin. lia.
Qed.

Lemma segment_files_distinct (session_dir : string) (n : Z) (count : nat) :
  (0 <= n)%Z ->
  NoDup (map (segment_wav session_dir) (numbers_from n count)).
Proof.
  revert n. induction count as [|count IH]; intros n Hn; [constructor|].
  cbn [numbers_from map]. constructor; [|apply IH; lia].
  intros Hin. apply in_map_iff in Hin. destruct Hin as (k & Heq & Hk).
  apply numbers_from_ge in Hk.
  apply segment_wav_inj in Heq; lia.
Qed.

Lemma saved_paths_of_capture_trace (tr : list event) :
  saved_paths (capture_trace tr) = saved_paths tr.
Proof.
  unfold capture_trace. induction tr as [|ev tr IH]; [reflexivity|].
  cbn [filter].
  destruct ev; cbn [is_capture_event saved_paths]; try exact IH.
  - destruct (is_segment_start _); exact IH.
  - now rewrite IH.
Qed.

Lemma processed_of_capture_trace (tr : list event) :
  processed_segments (capture_trace tr) = processed_segments tr.
Proof.
  unfold capture_trace. induction tr as [|ev tr IH]; [reflexivity|].
  cbn [filter].
  destruct ev; cbn [is_capture_event processed_segments]; try exact IH.
  - destruct (is_segment_start _); exact IH.
  - now rewrite IH.
Qed.

Lemma wav_save_in_capture_trace (tr : list event) (path : string)
    (frames : list string) :
  In (WavSave path frames) tr -> In (WavSave path frames) (capture_trace tr).
Proof. intros H. apply filter_In. split; [exact H | reflexivity]. Qed.

End FileNames.

Lemma capture_trace_without_token (w : World) (model_size : string)
    (segment_minutes : Z) :
  py_not (hf_token w) = true ->
  capture_trace
    (record_and_transcribe_with_diarization w model_size segment_minutes)
  = [].
Proof.
  intros Htok. unfold record_and_transcribe_with_diarization.
  rewrite Htok. reflexivity.
Qed.


(** X15. The live scripts never write a WAV file without audio: every
    file saved in a session holds at least one chunk. *)
Theorem no_empty_segment_file :
  (forall w model_size segment_minutes path frames,
     In (WavSave path frames)
        (record_and_transcribe_continuous w model_size segment_minutes) ->
     frames <> [])
  /\ (forall w model_size segment_minutes path frames,
        In (WavSave path frames)
           (record_and_transcribe_with_diarization w model_size
                                                   segment_minutes) ->
        frames <> []).
Proof.
  split; intros w model_size segment_minutes path frames Hin.
  - apply wav_save_in_capture_trace in Hin.
    rewrite capture_trace_continuous in Hin.
    destruct (capture_loop transcribe_segment _ _ (clock w) (reads w) 1
                AtSegmentStart) as [tr ex] eqn:Hrun.
    destruct (capture_loop_numbering _ _ _ _ _ _ _ _ _ Hrun) as (_ & _ & Hne).
    eapply Hne. exact Hin.
  - destruct (py_not (hf_token w)) eqn:Htok.
    + exfalso. unfold record_and_transcribe_with_diarization in Hin.
      rewrite Htok in Hin. cbn [app In] in Hin.
      repeat (destruct Hin as [Hin|Hin]; [discriminate|]). exact Hin.
    + apply wav_save_in_capture_trace in Hin.
      rewrite capture_trace_with_diarization in Hin by exact Htok.
      destruct (capture_loop transcribe_with_speakers _ _ (clock w)
                  (reads w) 1 AtSegmentStart) as [tr ex] eqn:Hrun.
      destruct (capture_loop_numbering _ _ _ _ _ _ _ _ _ Hrun)
        as (_ & _ & Hne).
      eapply Hne. exact Hin.
Qed.

Lemma no_empty_segment_file_witness :
  In (WavSave "transcriptions/session_S/segment_001.wav" ["a"; "b"])
     (record_and_transcribe_continuous world_interrupted "base" 1)
  /\ ["a"; "b"] <> @nil string.
Proof.
  assert (Hin : In (WavSave "transcriptions/session_S/segment_001.wav"
                            ["a"; "b"])
                   (record_and_transcribe_continuous world_interrupted
                                                     "base" 1))
    by (vm_compute; tauto).
  split; [exact Hin|].
  destruct no_empty_segment_file as [Hcont _].
  exact (Hcont world_interrupted "base" 1%Z _ _ Hin).
Defined.

(** X16. Different segment numbers give different file names, also beyond
    999 where the number outgrows its three digits; so within a session no
    segment file is written twice. *)
Theorem segment_files_never_collide :
  (forall session_dir n1 n2,
     (0 <= n1)%Z -> (0 <= n2)%Z ->
     segment_wav session_dir n1 = segment_wav session_dir n2 -> n1 = n2)
  /\ (forall w model_size segment_minutes,
        NoDup (saved_paths (record_and_transcribe_continuous
                              w model_size segment_minutes)))
  /\ (forall w model_size segment_minutes,
        NoDup (saved_paths (record_and_transcribe_with_diarization
                              w model_size segment_minutes))).
Proof.
  split; [exact segment_wav_inj|].
  split; intros w model_size segment_minutes.
  - rewrite <- saved_paths_of_capture_trace, capture_trace_continuous.
    destruct (capture_loop transcribe_segment _ _ (clock w) (reads w) 1
                AtSegmentStart) as [tr ex] eqn:Hrun.
    destruct (capture_loop_numbering _ _ _ _ _ _ _ _ _ Hrun) as (Hp & _).
    cbn [fst]. rewrite Hp. apply segment_files_distinct. lia.
  - rewrite <- saved_paths_of_capture_trace.
    destruct (py_not (hf_token w)) eqn:Htok.
    + rewrite capture_trace_without_token by exact Htok. constructor.
    + rewrite capture_trace_with_diarization by exact Htok.
      destruct (capture_loop transcribe_with_speakers _ _ (clock w)
                  (reads w) 1 AtSegmentStart) as [tr ex] eqn:Hrun.
      destruct (capture_loop_numbering _ _ _ _ _ _ _ _ _ Hrun) as (Hp & _).
      cbn [fst]. rewrite Hp. apply segment_files_distinct. lia.
Qed.

Lemma segment_files_never_collide_witness :
  segment_wav "d" 7 <> segment_wav "d" 1007.
Proof.
  destruct segment_files_never_collide as (Hinj & _ & _).
  intros Heq. apply Hinj in Heq; lia.
Defined.

(** X17. A segment duration of zero or less ends the session at once:
    with a clock that does not run backwards, the first segment is
    announced, nothing is read from the stream, no file is written, and
    the loop is left through [break], so the stream is closed in the
    ordinary way. *)
Theorem nonpositive_duration_records_nothing (w : World)
    (model_size : string) (segment_minutes : Z) (t0 t1 : Q)
    (later : list Q) :
  clock w = t0 :: t1 :: later ->
  (t0 <= t1)%Q ->
  (segment_minutes <= 0)%Z ->
  capture_loop transcribe_segment
    ("transcriptions/session_" ++ session_stamp w)
    (inject_Z (segment_minutes * 60)) (clock w) (reads w) 1 AtSegmentStart
  = ([Print (recording_line 1)], ExitBreak)
  /\ capture_trace
       (record_and_transcribe_continuous w model_size segment_minutes)
     = [Print (recording_line 1)]
  /\ In StreamClose
        (record_and_transcribe_continuous w model_size segment_minutes).
Proof.
  intros Hclock Hmono Hmin.
  assert (Hq : (inject_Z (segment_minutes * 60) <= 0)%Q).
  { change 0%Q with (inject_Z 0). rewrite <- Zle_Qle. lia. }
  assert (Hloop :
    capture_loop transcribe_segment
      ("transcriptions/session_" ++ session_stamp w)
      (inject_Z (segment_minutes * 60)) (clock w) (reads w) 1 AtSegmentStart
    = ([Print (recording_line 1)], ExitBreak)).
  { rewrite Hclock. cbn [capture_loop].
    replace (Qltb (t1 - t0) (inject_Z (segment_minutes * 60))) with false;
      [reflexivity|].
    symmetry. apply Qltb_ge. lra. }
  split; [exact Hloop|]. split.
  - rewrite capture_trace_continuous, Hloop. reflexivity.
  - unfold record_and_transcribe_continuous, capture_and_close.
    rewrite Hloop. rewrite !in_app_iff. right. right. right.
    cbn [In]. tauto.
Qed.

Lemma nonpositive_duration_records_nothing_witness :
  capture_trace (record_and_transcribe_continuous world_interrupted "base" 0)
  = [Print (recording_line 1)].
Proof.
  apply (nonpositive_duration_records_nothing world_interrupted "base" 0
           0 1 [2; 70; 71; 72; 73; 74]%Q).
  - reflexivity.
  - unfold Qle; simpl; lia.
  - lia.
Defined.

(** ** The single-recording script *)

Section SingleRecording.

Lemma record_until_interrupt_spec (reads : list ReadResult)
    (frames : list string) :
  fst (record_until_interrupt reads frames)
  = map StreamRead (chunks_before_interrupt reads)
  /\ snd (record_until_interrupt reads frames)
     = if existsb (fun r => match r with ReadInterrupt => true
                                       | ReadData _ => false end) reads
       then Some (frames ++ chunks_before_interrupt reads)%list
       else None.
Proof.
  revert frames. induction reads as [|[data|] reads IH]; intros frames.
  - split; reflexivity.
  - cbn [record_until_interrupt chunks_before_interrupt existsb orb map].
    destruct (record_until_interrupt reads (frames ++ [data]))
      as [tr res] eqn:E.
    destruct (IH (frames ++ [data])%list) as [H1 H2].
    rewrite E in H1, H2. cbn [fst snd] in *. rewrite H1, H2.
    split; [reflexivity|]. destruct (existsb _ reads); [|reflexivity].
    now rewrite <- app_assoc.
  - cbn. now rewrite app_nil_r.
Qed.

Lemma captured_reads (chunks : list string) (tr : list event) :
  captured (map StreamRead chunks ++ tr) = (chunks ++ captured tr)%list.
Proof. induction chunks as [|c chunks IH]; cbn; [reflexivity | now rewrite IH]. Qed.

Lemma persisted_reads (chunks : list string) (tr : list event) :
  persisted (map StreamRead chunks ++ tr) = persisted tr.
Proof. induction chunks as [|c chunks IH]; cbn; [reflexivity | exact IH]. Qed.

Lemma captured_only_reads (chunks : list string) :
  captured (map StreamRead chunks) = chunks.
Proof. induction chunks as [|c chunks IH]; cbn; [reflexivity | now rewrite IH]. Qed.

Lemma persisted_only_reads (chunks : list string) :
  persisted (map StreamRead chunks) = [].
Proof. induction chunks as [|c chunks IH]; cbn; [reflexivity | exact IH]. Qed.

Lemma saved_paths_reads (chunks : list string) (tr : list event) :
  saved_paths (map StreamRead chunks ++ tr) = saved_paths tr.
Proof. induction chunks as [|c chunks IH]; cbn; [reflexivity | exact IH]. Qed.

Lemma interrupt_present (reads : list ReadResult) :
  In ReadInterrupt reads <->
  existsb (fun r => match r with ReadInterrupt => true
                              | ReadData _ => false end) reads = true.
Proof.
  rewrite existsb_exists. split.
  - intros H. exists ReadInterrupt. auto.
  - intros ([d|] & Hin & Hr); [discriminate | exact Hin].
Qed.

End SingleRecording.

(** X18. In the single-recording script the interrupt loses nothing:
    once it arrives, the stream is closed and one WAV file is written that
    holds every chunk read, in order, even when no chunk was read at all;
    only then is the file transcribed and the text written. *)
Theorem interrupt_saves_the_whole_recording (format_2f : Q -> string)
    (w : SingleWorld) (model_size : string) :
  In ReadInterrupt (sw_reads w) ->
  let tr := record_and_transcribe format_2f w model_size in
  let audio_file := "transcriptions/audio_" ++ sw_stamp w ++ ".wav" in
  let chunks := chunks_before_interrupt (sw_reads w) in
  captured tr = chunks
  /\ all_captured_audio_saved tr
  /\ exists before,
       captured before = chunks /\ persisted before = []
       /\ tr = (before
                ++ [ Print (nl ++ "✅ Recording completed");
                     StreamStop; StreamClose; AudioTerminate;
                     Print "💾 Saving audio...";
                     WavSave audio_file chunks;
                     Print "📝 Transcription in progress (using Apple Silicon acceleration)...";
                     Transcribe audio_file
                       ("mlx-community/whisper-" ++ model_size ++ "-mlx");
                     WriteFile
                       ("transcriptions/transcription_" ++ sw_stamp w
                        ++ ".txt")
                       (transcription_file format_2f w);
                     Print (nl ++ "✅ Transcription saved: "
                               ++ "transcriptions/transcription_"
                               ++ sw_stamp w ++ ".txt");
                     Print (nl ++ "📄 Transcribed text:" ++ nl
                               ++ str_repeat "-" 50 ++ nl ++ sw_text w
                               ++ nl ++ str_repeat "-" 50) ])%list.
Proof.
  intros Hint. cbv zeta. apply interrupt_present in Hint.
  unfold record_and_transcribe, all_captured_audio_saved.
  destruct (record_until_interrupt_spec (sw_reads w) []) as [H1 H2].
  destruct (record_until_interrupt (sw_reads w) []) as [tr res].
  cbn [fst snd] in H1, H2. rewrite Hint in H2. subst tr res.
  cbn [app]. set (chunks := chunks_before_interrupt (sw_reads w)).
  destruct (sw_transcriptions_exists w);
    cbn [app captured persisted];
    rewrite ?captured_reads, ?persisted_reads;
    cbn [captured persisted]; rewrite ?app_nil_r;
    (split; [reflexivity|]); (split; [reflexivity|]).
  - exists ([ Print ("Loading MLX Whisper model '" ++ model_size ++ "'...");
              AudioInit; StreamOpen;
              Print (nl ++ "🎤 Recording in progress...");
              Print ("💡 Press Ctrl+C to stop" ++ nl) ]
            ++ map StreamRead chunks)%list.
    cbn [app captured persisted].
    rewrite captured_only_reads, persisted_only_reads.
    repeat split; reflexivity.
  - exists ([ Print ("Loading MLX Whisper model '" ++ model_size ++ "'...");
              MakeDirs "transcriptions";
              AudioInit; StreamOpen;
              Print (nl ++ "🎤 Recording in progress...");
              Print ("💡 Press Ctrl+C to stop" ++ nl) ]
            ++ map StreamRead chunks)%list.
    cbn [app captured persisted].
    rewrite captured_only_reads, persisted_only_reads.
    repeat split; reflexivity.
Qed.

Lemma interrupt_saves_the_whole_recording_witness :
  all_captured_audio_saved
    (record_and_transcribe (fun _ => "0.00")
       (mkSingleWorld true "S" "H" [ReadData "a"; ReadData "b"; ReadInterrupt]
                      "salut" [mkWhisper 0 1 "salut"])
       "base").
Proof.
  apply (interrupt_saves_the_whole_recording (fun _ => "0.00")
           (mkSingleWorld true "S" "H"
                          [ReadData "a"; ReadData "b"; ReadInterrupt]
                          "salut" [mkWhisper 0 1 "salut"]) "base").
  cbn. tauto.
Defined.

(** X19. Until the interrupt arrives the single-recording script keeps
    the audio in memory only: as long as the reads go on, every chunk read
    is in the trace and no WAV file, transcription or text file exists. *)
Theorem nothing_on_disk_before_interrupt (format_2f : Q -> string)
    (w : SingleWorld) (model_size : string) :
  ~ In ReadInterrupt (sw_reads w) ->
  let tr := record_and_transcribe format_2f w model_size in
  captured tr = chunks_before_interrupt (sw_reads w)
  /\ persisted tr = []
  /\ saved_paths tr = []
  /\ forall ev,
       In ev tr ->
       match ev with
       | WavSave _ _ | Transcribe _ _ | WriteFile _ _ => False
       | _ => True
       end.
Proof.
  intros Hno. cbv zeta. unfold record_and_transcribe.
  destruct (record_until_interrupt_spec (sw_reads w) []) as [H1 H2].
  destruct (record_until_interrupt (sw_reads w) []) as [tr res].
  cbn [fst snd] in H1, H2.
  destruct (existsb _ (sw_reads w)) eqn:E.
  { exfalso. apply Hno. now apply interrupt_present. }
  subst tr res. set (chunks := chunks_before_interrupt (sw_reads w)).
  pose proof (captured_reads chunks []) as Hc.
  pose proof (persisted_reads chunks []) as Hp.
  pose proof (saved_paths_reads chunks []) as Hs.
  rewrite app_nil_r in Hc, Hp, Hs. cbn in Hc, Hp, Hs.
  rewrite app_nil_r in Hc.
  repeat split.
  - destruct (sw_transcriptions_exists w); cbn [app captured]; exact Hc.
  - destruct (sw_transcriptions_exists w); cbn [app persisted]; exact Hp.
  - destruct (sw_transcriptions_exists w); cbn [app saved_paths]; exact Hs.
  - intros ev Hin. apply in_app_or in Hin. destruct Hin as [Hin|Hin].
    + destruct (sw_transcriptions_exists w); cbn [app In] in Hin;
        repeat (destruct Hin as [<-|Hin]; [exact I|]); destruct Hin.
    + apply in_map_iff in Hin. destruct Hin as (c & <- & _). exact I.
Qed.

Lemma nothing_on_disk_before_interrupt_witness :
  saved_paths
    (record_and_transcribe (fun _ => "0.00")
       (mkSingleWorld true "S" "H" [ReadData "a"; ReadData "b"] "" [])
       "base")
  = [].
Proof.
  apply (nothing_on_disk_before_interrupt (fun _ => "0.00")
           (mkSingleWorld true "S" "H" [ReadData "a"; ReadData "b"] "" [])
           "base").
  cbn. intros [H|[H|[]]]; discriminate.
Defined.

(** ** The access check *)

Section AccessCheck.

Lemma check_models_all (w : AccessWorld) (models : list string) :
  (forall m, In m models -> aw_model_info w m <> Some NotAnException) ->
  snd (check_models w models) = true
  /\ queried (fst (check_models w models)) = models
  /\ printed (fst (check_models w models)) = map (access_line w) models.
Proof.
  induction models as [|m models IH]; intros Hok; [repeat split|].
  destruct IH as (H1 & H2 & H3); [intros x Hx; apply Hok; now right|].
  pose proof (Hok m (or_introl eq_refl)) as Hm.
  cbn [check_models map]. unfold access_line at 1.
  destruct (check_models w models) as [tr ok]. cbn [fst snd] in *.
  destruct (aw_model_info w m) as [[| |]|]; try contradiction;
    cbn [fst snd queried printed]; rewrite H2, H3; auto.
Qed.

End AccessCheck.

(** X20. The access check never stops at a model it cannot reach: as long
    as no call ends the interpreter, all three models are queried in the
    listed order, with or without a token, and exactly four lines are
    printed: the token line, then for each model "Access granted" if its
    call returned and "Access denied or not accepted" if it raised. *)
Theorem every_model_is_checked (w : AccessWorld) :
  (forall m, In m models_to_check ->
             aw_model_info w m <> Some NotAnException) ->
  snd (check_access w) = true
  /\ queried (fst (check_access w)) = models_to_check
  /\ printed (fst (check_access w))
     = ("Token found: "
        ++ (if py_not (aw_token w) then "❌ No" else "✅ Yes"))
       :: map (access_line w) models_to_check
  /\ List.length (printed (fst (check_access w))) = 4%nat.
Proof.
  intros Hok. destruct (check_models_all w models_to_check Hok)
    as (H1 & H2 & H3).
  unfold check_access. destruct (check_models w models_to_check) as [tr ok].
  cbn [fst snd queried printed] in *. rewrite H3.
  repeat split; auto.
Qed.

Lemma every_model_is_checked_witness :
  printed
    (fst (check_access
            (mkAccessWorld None
               (fun m => if String.eqb m "pyannote/segmentation-3.0"
                         then Some (OtherException "401") else None))))
  = [ "Token found: ❌ No";
      "✅ pyannote/speaker-diarization-3.0 - Access granted";
      "❌ pyannote/segmentation-3.0 - Access denied or not accepted";
      "✅ pyannote/embedding - Access granted" ].
Proof.
  destruct (every_model_is_checked
              (mkAccessWorld None
                 (fun m => if String.eqb m "pyannote/segmentation-3.0"
                           then Some (OtherException "401") else None)))
    as (_ & _ & Hp & _).
  - intros m [<-|[<-|[<-|[]]]]; discriminate.
  - rewrite Hp. reflexivity.
Defined.

(** ** More on the batch script *)

(** X21. The file-not-found line always names the audio file: when the
    transcription succeeds and it is the writing of transcription.txt that
    raises [FileNotFoundError] (no Downloads folder), the script still
    reports the audio file as not found and never mentions the text
    file. *)
Theorem missing_output_folder_blames_audio (w : BatchWorld) (text : string) :
  transcribe_outcome w = inr text ->
  write_outcome w = Some FileNotFoundError ->
  whipser_mp3 w
  = ([ Print (home w ++ "/Downloads/Recording.mp3");
       Transcribe (home w ++ "/Downloads/Recording.mp3") whisper_model;
       Print ("Le fichier " ++ home w ++ "/Downloads/Recording.mp3"
              ++ " n'a pas été trouvé.");
       PrintExecutionTime ((end_time w - start_time w) / 60) ], true).
Proof.
  intros H1 H2. unfold whipser_mp3, batch_try. rewrite H1, H2.
  unfold msg_not_found. rewrite !str_app_assoc. reflexivity.
Qed.

Lemma missing_output_folder_blames_audio_witness :
  whipser_mp3 (mkBatchWorld "/Users/me" (inr "bonjour")
                            (Some FileNotFoundError) 0 60)
  = ([ Print "/Users/me/Downloads/Recording.mp3";
       Transcribe "/Users/me/Downloads/Recording.mp3" whisper_model;
       Print "Le fichier /Users/me/Downloads/Recording.mp3 n'a pas été trouvé.";
       PrintExecutionTime ((60 - 0) / 60) ], true).
Proof.
  rewrite (missing_output_folder_blames_audio
             (mkBatchWorld "/Users/me" (inr "bonjour")
                           (Some FileNotFoundError) 0 60) "bonjour");
    reflexivity.
Defined.

(** X22. The batch script swallows every [Exception]: whatever the
    transcription or the writing raises, short of an exception that is not
    an [Exception], the script runs to its last line and the execution
    time is the last thing printed; the text file is written only when
    nothing was raised. *)
Theorem batch_script_always_reports_time (w : BatchWorld) :
  snd (batch_try w (home w ++ "/Downloads/Recording.mp3")
                 (home w ++ "/Downloads/transcription.txt"))
  <> Some NotAnException ->
  snd (whipser_mp3 w) = true
  /\ last (fst (whipser_mp3 w)) (Print "")
     = PrintExecutionTime ((end_time w - start_time w) / 60)
  /\ ((exists content,
         In (WriteFile (home w ++ "/Downloads/transcription.txt") content)
            (fst (whipser_mp3 w)))
      <-> snd (batch_try w (home w ++ "/Downloads/Recording.mp3")
                         (home w ++ "/Downloads/transcription.txt"))
          = None).
Proof.
  intros Hexc. unfold whipser_mp3, batch_try in *.
  rewrite !str_app_assoc in *. cbn [append] in *.
  destruct (transcribe_outcome w) as [[| |]|text];
    [| |contradiction|].
  - cbn. repeat split; try discriminate.
    intros (c & [H|[H|[H|[H|[]]]]]); discriminate.
  - cbn. repeat split; try discriminate.
    intros (c & [H|[H|[H|[H|[]]]]]); discriminate.
  - destruct (write_outcome w) as [[| |]|]; [| |contradiction|].
    + cbn. repeat split; try discriminate.
      intros (c & [H|[H|[H|[H|[]]]]]); discriminate.
    + cbn. repeat split; try discriminate.
      intros (c & [H|[H|[H|[H|[]]]]]); discriminate.
    + cbn. repeat split; try reflexivity.
      intros _. exists text. right. right. left. reflexivity.
Qed.

Lemma batch_script_always_reports_time_witness :
  snd (whipser_mp3 (mkBatchWorld "/Users/me"
                                 (inl (OtherException "ffmpeg failed"))
                                 None 0 60)) = true
  /\ last (fst (whipser_mp3 (mkBatchWorld "/Users/me"
                                (inl (OtherException "ffmpeg failed"))
                                None 0 60)))
          (Print "")
     = PrintExecutionTime ((60 - 0) / 60).
Proof.
  destruct (batch_script_always_reports_time
              (mkBatchWorld "/Users/me"
                            (inl (OtherException "ffmpeg failed")) None 0 60))
    as (H1 & H2 & _).
  - discriminate.
  - split; [exact H1 | exact H2].
Defined.

(** ** The preview *)

(** X23. The preview never shows more than three segments: it prints one
    line for each of the first three segments of the list, or for all of
    them when there are fewer, in their order. *)
Theorem preview_shows_first_three (slice60 : string -> string)
    (segments : list Segment) :
  print_preview slice60 segments
  = map (fun seg =>
           Print ("   " ++ seg_speaker seg ++ ": "
                  ++ slice60 (seg_text seg) ++ "..."))
        (firstn 3 segments)
  /\ List.length (print_preview slice60 segments)
     = Nat.min 3 (List.length segments).
Proof.
  assert (Hfirst : (if (3 <? List.length segments)%nat
                    then firstn 3 segments else segments)
                   = firstn 3 segments).
  { destruct (3 <? List.length segments)%nat eqn:E; [reflexivity|].
    apply Nat.ltb_ge in E. symmetry. now apply firstn_all2. }
  unfold print_preview. rewrite Hfirst. split; [reflexivity|].
  rewrite length_map. apply length_firstn.
Qed.

(** ** The token test *)

(** X24. The token is tested for truth, not for presence: an HF_TOKEN set
    to the empty string aborts the session exactly like a missing one, and
    any other value, whatever it is, is handed unchanged to the
    diarization pipeline, after which the session goes on to open the
    audio stream. *)
Theorem empty_token_counts_as_missing (w : World) (model_size : string)
    (segment_minutes : Z) :
  (hf_token w = Some "" ->
   record_and_transcribe_with_diarization w model_size segment_minutes
   = record_and_transcribe_with_diarization
       (mkWorld None (mps_probe w) (transcriptions_exists w)
                (session_stamp w) (header_stamp w) (clock w) (reads w))
       model_size segment_minutes
   /\ forall ev,
        In ev (record_and_transcribe_with_diarization w model_size
                                                      segment_minutes) ->
        is_recording_event ev = false)
  /\ (forall token,
        hf_token w = Some token -> token <> "" ->
        In (LoadPipeline "pyannote/speaker-diarization-3.0" token)
           (record_and_transcribe_with_diarization w model_size
                                                   segment_minutes)
        /\ In StreamOpen
              (record_and_transcribe_with_diarization w model_size
                                                      segment_minutes)).
Proof.
  split.
  - intros Htok. unfold record_and_transcribe_with_diarization.
    rewrite Htok. cbn [hf_token py_not String.eqb].
    split; [reflexivity|]. intros ev Hin. cbn [app In] in Hin.
    repeat (destruct Hin as [<-|Hin]; [reflexivity|]). destruct Hin.
  - intros token Htok Hne. unfold record_and_transcribe_with_diarization.
    rewrite Htok. cbn [py_not]. apply String.eqb_neq in Hne. rewrite Hne.
    split.
    + rewrite !in_app_iff. right. left. left. reflexivity.
    + rewrite !in_app_iff. do 4 right. left. cbn [In]. tauto.
Qed.

Lemma empty_token_counts_as_missing_witness :
  (forall ev,
     In ev (record_and_transcribe_with_diarization
              (mkWorld (Some "") MpsAvailable true "S" "H" [0; 1]
                       [ReadData "a"])
              "base" 1) ->
     is_recording_event ev = false)
  /\ In (LoadPipeline "pyannote/speaker-diarization-3.0" "hf_token")
        (record_and_transcribe_with_diarization world_interrupted "base" 1)
  /\ In StreamOpen
        (record_and_transcribe_with_diarization world_interrupted "base" 1).
Proof.
  split.
  - destruct (empty_token_counts_as_missing
                (mkWorld (Some "") MpsAvailable true "S" "H" [0; 1]
                         [ReadData "a"]) "base" 1) as [Hempty _].
    apply Hempty. reflexivity.
  - destruct (empty_token_counts_as_missing world_interrupted "base" 1)
      as [_ Hpresent].
    apply (Hpresent "hf_token"); [reflexivity | discriminate].
Defined.
